(** * The scanning engine of [parser/lexer/lexer.go], embedded in Rocq.

    The Go lexer keeps one mutable [lexer] record and threads it through
    every cursor, emitter and scanner method.  Here the record is a Rocq
    [Record], the methods are computations in a small state monad whose
    outcomes also account for Go run-time panics (a slice expression out of
    range), and the loops of the source are recursive functions.

    Go's [int] is 64 bits wide; every offset handled below is bounded by the
    length of the input, so the arithmetic is done in [Z] and never wraps. *)

From Stdlib Require Import ZArith Zbitwise List Lia Bool.
From Stdlib Require Import Strings.String Strings.Ascii Strings.Byte.
Import ListNotations.
Local Open Scope Z_scope.

(** ** Go strings and runes *)

(** A Go [string] is an immutable sequence of bytes. *)
Definition gostring := list byte.

(** A Go [rune] is an [int32]; the decoder only yields values in
    [0 .. 0x10FFFF] and the lexer adds the sentinel [-1]. *)
Abbreviation rune := Z (only parsing).

Definition len (s : gostring) : Z := Z.of_nat (List.length s).

Definition byteval (b : byte) : Z := Z.of_N (Byte.to_N b).

(** [s[i:]] for an index already known to be in range. *)
Definition slice_from (s : gostring) (i : Z) : gostring := skipn (Z.to_nat i) s.

(** A Go string literal. *)
Definition lit (s : string) : gostring := list_byte_of_string s.

(** A Go rune literal, ['c']. *)
Definition chr (c : ascii) : rune := Z.of_N (N_of_ascii c).

(** ** The part of [unicode/utf8] and [strings] the lexer calls *)

Module utf8.

Definition RuneError : rune := 0xFFFD.
Definition RuneSelf : Z := 0x80.

(** Information byte of the table [first]: the low three bits give the
    size of the encoding, the high four bits index [acceptRanges]. *)
Definition xx : Z := 0xF1.
Definition as_ : Z := 0xF0.

Definition first (b : Z) : Z :=
  if b <? 0x80 then as_
  else if b <? 0xC2 then xx
  else if b <? 0xE0 then 0x02
  else if b =? 0xE0 then 0x13
  else if b <? 0xED then 0x03
  else if b =? 0xED then 0x23
  else if b <? 0xF0 then 0x03
  else if b =? 0xF0 then 0x34
  else if b <? 0xF4 then 0x04
  else if b =? 0xF4 then 0x44
  else xx.

Definition locb : Z := 0x80.
Definition hicb : Z := 0xBF.

(** [acceptRanges[i]] as a pair (lo, hi). *)
Definition acceptRanges (i : Z) : Z * Z :=
  if i =? 1 then (0xA0, hicb)
  else if i =? 2 then (locb, 0x9F)
  else if i =? 3 then (0x90, hicb)
  else if i =? 4 then (locb, 0x8F)
  else (locb, hicb).

Definition mask2 : Z := 0x1F.
Definition mask3 : Z := 0x0F.
Definition mask4 : Z := 0x07.
Definition maskx : Z := 0x3F.

Definition outside (lo hi b : Z) : bool := (b <? lo) || (hi <? b).

(** [utf8.DecodeRuneInString]: the first rune of [s] and its width in
    bytes; [(RuneError, 0)] on the empty string, [(RuneError, 1)] on an
    invalid encoding. *)
Definition DecodeRuneInString (s : gostring) : rune * Z :=
  match s with
  | [] => (RuneError, 0)
  | b0 :: t =>
    let s0 := byteval b0 in
    let x := first s0 in
    if as_ <=? x then
      (* the mask-and-or of the source: the byte itself for ASCII,
         RuneError for an invalid leading byte *)
      if x =? as_ then (s0, 1) else (RuneError, 1)
    else
      let sz := Z.land x 7 in
      let '(lo, hi) := acceptRanges (Z.shiftr x 4) in
      if len s <? sz then (RuneError, 1)
      else
        match t with
        | [] => (RuneError, 1)
        | b1 :: t1 =>
          let s1 := byteval b1 in
          if outside lo hi s1 then (RuneError, 1)
          else if sz <=? 2 then
            (Z.lor (Z.shiftl (Z.land s0 mask2) 6) (Z.land s1 maskx), 2)
          else
            match t1 with
            | [] => (RuneError, 1)
            | b2 :: t2 =>
              let s2 := byteval b2 in
              if outside locb hicb s2 then (RuneError, 1)
              else if sz <=? 3 then
                (Z.lor (Z.lor (Z.shiftl (Z.land s0 mask3) 12)
                              (Z.shiftl (Z.land s1 maskx) 6))
                       (Z.land s2 maskx), 3)
              else
                match t2 with
                | [] => (RuneError, 1)
                | b3 :: _ =>
                  let s3 := byteval b3 in
                  if outside locb hicb s3 then (RuneError, 1)
                  else
                    (Z.lor (Z.lor (Z.lor (Z.shiftl (Z.land s0 mask4) 18)
                                         (Z.shiftl (Z.land s1 maskx) 12))
                                  (Z.shiftl (Z.land s2 maskx) 6))
                           (Z.land s3 maskx), 4)
                end
            end
        end
  end.

End utf8.

(** [[]rune(s)], which is also the sequence a [for _, ch := range s] loop
    visits: the string is decoded rune by rune, an invalid byte giving
    [RuneError] and being skipped alone.  Every step drops at least one
    byte, so the length of the string is fuel enough. *)
Fixpoint runes_fuel (fuel : nat) (s : gostring) : list rune :=
  match fuel with
  | O => []
  | S fuel' =>
    match s with
    | [] => []
    | _ :: _ =>
      let '(r, w) := utf8.DecodeRuneInString s in
      r :: runes_fuel fuel' (slice_from s w)
    end
  end.

Definition runes (s : gostring) : list rune := runes_fuel (List.length s) s.

(** [strings.ContainsRune(s, r)]: whether the code point [r] is within
    [s].  The library looks for the byte of an ASCII [r], for a decoded
    [RuneError] when [r] is [RuneError], for the encoding of any other
    valid [r], and finds nothing for an invalid [r] (a negative one, a
    surrogate); as the decoder yields valid code points and [RuneError]
    only, that is membership among the runes of [s]. *)
Definition ContainsRune (s : gostring) (r : rune) : bool :=
  existsb (Z.eqb r) (runes s).

(** ** Data model *)

(** Modelled from the spec: [file.Location], the pair of a 1-based line and
    a 0-based column; package [file] is outside the given sources. *)
Record Location := { Line : Z; Column : Z }.

(** Modelled from the spec: [file.Error], a location and a message. *)
Record Error := { Error_Location : Location; Message : string }.

(** Modelled from the spec: [Kind] is an open enumeration owned by the
    token recognisers; the engine itself only names [EOF]. *)
Inductive Kind := EOF | OtherKind (name : string).

(** Modelled from the spec: [Token], declared next to [Kind]. *)
Record Token := { Token_Location : Location; Token_Kind : Kind; Value : gostring }.

(** The [lexer] struct.  Its field [state] is never read or written by any
    method of the file and is left out; [end] is a keyword, hence [end_]. *)
Record lexer := {
  input : gostring;
  tokens : list Token;
  start : Z;
  end_ : Z;
  width : Z;
  err : option Error
}.

Definition set_end (l : lexer) (e : Z) : lexer :=
  {| input := input l; tokens := tokens l; start := start l;
     end_ := e; width := width l; err := err l |}.

Definition set_width (l : lexer) (w : Z) : lexer :=
  {| input := input l; tokens := tokens l; start := start l;
     end_ := end_ l; width := w; err := err l |}.

Definition set_start (l : lexer) (s : Z) : lexer :=
  {| input := input l; tokens := tokens l; start := s;
     end_ := end_ l; width := width l; err := err l |}.

Definition set_tokens (l : lexer) (ts : list Token) : lexer :=
  {| input := input l; tokens := ts; start := start l;
     end_ := end_ l; width := width l; err := err l |}.

Definition set_err (l : lexer) (e : option Error) : lexer :=
  {| input := input l; tokens := tokens l; start := start l;
     end_ := end_ l; width := width l; err := e |}.

(** The lexer [Lex] starts from. *)
Definition new_lexer (source : gostring) : lexer :=
  {| input := source; tokens := []; start := 0; end_ := 0; width := 0;
     err := None |}.

(** ** The monad of lexer methods *)

(** A method call either returns a value and leaves a new lexer, or
    panics (Go's run-time error on a slice out of range).  [OutOfFuel] is
    the outcome of a loop model whose fuel did not suffice; the theorems
    show it does not arise. *)
Inductive outcome (A : Type) : Type :=
| Ok (a : A) (l : lexer)
| Panic
| OutOfFuel.
Arguments Ok {A} a l.
Arguments Panic {A}.
Arguments OutOfFuel {A}.

Definition M (A : Type) : Type := lexer -> outcome A.

Definition ret {A} (a : A) : M A := fun l => Ok a l.

Definition bind {A B} (m : M A) (k : A -> M B) : M B :=
  fun l =>
    match m l with
    | Ok a l' => k a l'
    | Panic => Panic
    | OutOfFuel => OutOfFuel
    end.

Notation "x <- m ;; k" := (bind m (fun x => k))
  (at level 61, m at next level, right associativity).
Notation "m ;;; k" := (bind m (fun _ => k))
  (at level 61, right associativity).

(** The lexer a call leaves behind, when it returns. *)
Definition state_of {A} (o : outcome A) : option lexer :=
  match o with Ok _ l => Some l | _ => None end.

(** A state function of the driver: it returns the next state, or none. *)
#[warnings="-register-all"]
Inductive stateFn : Type :=
| StateFn (run : lexer -> outcome (option stateFn)).

(** ** Cursor *)

Definition eof : rune := -1.

Definition next : M rune := fun l =>
  if len (input l) <=? end_ l then Ok eof (set_width l 0)
  else if end_ l <? 0 then Panic (* l.input[l.end:] with a negative index *)
  else
    let '(r, w) := utf8.DecodeRuneInString (slice_from (input l) (end_ l)) in
    Ok r (set_end (set_width l w) (end_ l + w)).

Definition backup : M unit := fun l =>
  Ok tt (set_end l (end_ l - width l)).

Definition peek : M rune :=
  r <- next ;; backup ;;; ret r.

Definition accept (valid : gostring) : M bool :=
  r <- next ;;
  if ContainsRune valid r then ret true
  else backup ;;; ret false.

(** The loop of [acceptRun]; every round but the last moves [end] forward
    by at least one byte. *)
Fixpoint acceptRun_loop (fuel : nat) (valid : gostring) : M unit := fun l =>
  match fuel with
  | O => OutOfFuel
  | S fuel' =>
    (r <- next ;;
     if ContainsRune valid r then acceptRun_loop fuel' valid else ret tt) l
  end.

Definition acceptRun (valid : gostring) : M unit := fun l =>
  (acceptRun_loop (S (List.length (input l))) valid ;;; backup) l.

(** The loop of [acceptWord] over the runes of [word]. *)
Fixpoint acceptWord_loop (pos : Z) (word : list rune) : M bool :=
  match word with
  | [] => ret true
  | ch :: word' =>
    fun l =>
      match next l with
      | Ok r l' =>
        if r =? ch then acceptWord_loop pos word' l'
        else Ok false (set_end l' pos)
      | Panic => Panic
      | OutOfFuel => OutOfFuel
      end
  end.

Definition acceptWord (word : gostring) : M bool := fun l =>
  acceptWord_loop (end_ l) (runes word) l.

(** ** Location calculator *)

Definition mkloc (line column : Z) : Location :=
  {| Line := line; Column := column |}.

(** The [for i, ch := range []rune(l.input)] loop of [loc]. *)
Fixpoint loc_loop (rs : list rune) (i pos line column : Z) : Location :=
  match rs with
  | [] => mkloc line column
  | ch :: rs' =>
    if i =? pos then mkloc line column
    else if ch =? chr "010" then loc_loop rs' (i + 1) pos (line + 1) 0
    else loc_loop rs' (i + 1) pos line (column + 1)
  end.

Definition loc (l : lexer) (pos : Z) : Location :=
  loc_loop (runes (input l)) 0 pos 1 0.

(** ** Error reporter *)

(** [l.error(format)]; [message] is what [fmt.Sprintf] makes of the format
    and its arguments.  The result is always the nil state. *)
Definition error (message : string) : M (option stateFn) := fun l =>
  match err l with
  | None =>
    Ok None (set_err l (Some {| Error_Location := loc l (end_ l - 1);
                                Message := message |}))
  | Some _ => Ok None l
  end.

(** ** Token emitter *)

(** [l.input[l.start:l.end]]. *)
Definition word : M gostring := fun l =>
  if (0 <=? start l) && (start l <=? end_ l) && (end_ l <=? len (input l))
  then Ok (firstn (Z.to_nat (end_ l - start l)) (slice_from (input l) (start l))) l
  else Panic.

Definition emitValue (t : Kind) (value : gostring) : M unit := fun l =>
  Ok tt (set_start
           (set_tokens l (tokens l ++
              [{| Token_Location := loc l (start l); Token_Kind := t;
                  Value := value |}]))
           (end_ l)).

Definition emit (t : Kind) : M unit :=
  v <- word ;; emitValue t v.

Definition emitEOF : M unit := fun l =>
  Ok tt (set_start
           (set_tokens l (tokens l ++
              [{| Token_Location := loc l (start l - 1); Token_Kind := EOF;
                  Value := [] |}]))
           (end_ l)).

Definition ignore : M unit := fun l =>
  Ok tt (set_start l (end_ l)).

(** ** Escape and string scanner *)

Definition lower (ch : rune) : rune := Z.lor (chr "a" - chr "A") ch.

Definition digitVal (ch : rune) : Z :=
  if (chr "0" <=? ch) && (ch <=? chr "9") then ch - chr "0"
  else if (chr "a" <=? lower ch) && (lower ch <=? chr "f")
       then lower ch - chr "a" + 10
  else 16.

Definition invalid_char_escape : string := "invalid char escape".
Definition literal_not_terminated : string := "literal not terminated".

(** The loop of [scanDigits]; it returns the current [ch] and what is left
    of [n].  [n] drops by one each round, so [n] rounds of fuel suffice. *)
Fixpoint scanDigits_loop (fuel : nat) (ch : rune) (base n : Z) : M (rune * Z) :=
  if (0 <? n) && (digitVal ch <? base) then
    match fuel with
    | O => fun _ => OutOfFuel
    | S fuel' => ch' <- next ;; scanDigits_loop fuel' ch' base (n - 1)
    end
  else ret (ch, n).

Definition scanDigits (ch : rune) (base n : Z) : M rune :=
  r <- scanDigits_loop (Z.to_nat n) ch base n ;;
  if 0 <? snd r then error invalid_char_escape ;;; ret (fst r)
  else ret (fst r).

Definition single_escapes : list rune :=
  [chr "a"; chr "b"; chr "f"; chr "n"; chr "r"; chr "t"; chr "v"; chr "\"].

Definition is_octal (ch : rune) : bool := (chr "0" <=? ch) && (ch <=? chr "7").

Definition scanEscape (quote : rune) : M rune :=
  ch <- next ;;
  if existsb (Z.eqb ch) (single_escapes ++ [quote]) then next
  else if is_octal ch then scanDigits ch 8 3
  else if ch =? chr "x" then ch1 <- next ;; scanDigits ch1 16 2
  else if ch =? chr "u" then ch1 <- next ;; scanDigits ch1 16 4
  else if ch =? chr "U" then ch1 <- next ;; scanDigits ch1 16 8
  else error invalid_char_escape ;;; ret ch.

(** The loop of [scanString], entered with the rune just read. *)
Fixpoint scanString_loop (fuel : nat) (quote ch : rune) (n : Z) : M Z :=
  if ch =? quote then ret n
  else if (ch =? chr "010") || (ch =? eof) then
    error literal_not_terminated ;;; ret n
  else
    match fuel with
    | O => fun _ => OutOfFuel
    | S fuel' =>
      ch' <- (if ch =? chr "\" then scanEscape quote else next) ;;
      scanString_loop fuel' quote ch' (n + 1)
    end.

Definition scanString (quote : rune) : M Z := fun l =>
  (ch <- next ;; scanString_loop (S (List.length (input l))) quote ch 0) l.

(** ** Driver *)

(** The loop of [Lex]: the current state is run until none is left.  A
    state function is free never to return none, so the rounds are
    bounded by [fuel]. *)
Fixpoint Lex_loop (fuel : nat) (state : option stateFn) : M unit := fun l =>
  match state with
  | None => Ok tt l
  | Some (StateFn run_state) =>
    match fuel with
    | O => OutOfFuel
    | S fuel' =>
      match run_state l with
      | Ok state' l' => Lex_loop fuel' state' l'
      | Panic => Panic
      | OutOfFuel => OutOfFuel
      end
    end
  end.

(** [Lex], from the entry state [root], which is declared with the token
    recognisers.  The result is the token list, or the recorded error,
    which the source file only formats. *)
Definition Lex (fuel : nat) (root : stateFn) (source : gostring)
  : outcome (list Token + Error) :=
  match Lex_loop fuel (Some root) (new_lexer source) with
  | Ok _ l =>
    match err l with
    | Some e => Ok (inr e) l
    | None => Ok (inl (tokens l)) l
    end
  | Panic => Panic
  | OutOfFuel => OutOfFuel
  end.

(** * Vocabulary of the statements *)

(** What is left of the input at the scanning head, as bytes. *)
Definition rest (l : lexer) : gostring := slice_from (input l) (end_ l).

(** The runes [next] will return one after the other. *)
Definition ahead (l : lexer) : list rune := runes (rest l).

(** The lexer after a rune of width [w] has been consumed. *)
Definition moved (l : lexer) (w : Z) : lexer :=
  set_end (set_width l w) (end_ l + w).

(** The line break, ['\n']. *)
Definition newline : rune := chr "010".

(** One character scanned by the location calculator. *)
Definition advance (p : Location) (ch : rune) : Location :=
  if ch =? newline then mkloc (Line p + 1) 0
  else mkloc (Line p) (Column p + 1).

(** The longest prefix whose members all pass [f], and what follows it. *)
Fixpoint take_while {A} (f : A -> bool) (xs : list A) : list A :=
  match xs with
  | [] => []
  | x :: xs' => if f x then x :: take_while f xs' else []
  end.

Fixpoint drop_while {A} (f : A -> bool) (xs : list A) : list A :=
  match xs with
  | [] => []
  | x :: xs' => if f x then drop_while f xs' else xs
  end.

(** The input of three characters [a], line break, [b]. *)
Definition a_newline_b : gostring := lit "a" ++ [x0a] ++ lit "b".

Definition not_newline (ch : rune) : bool := negb (ch =? newline).

(** The characters of [before] that follow its last newline. *)
Definition current_line (before : list rune) : list rune :=
  take_while not_newline (rev before).

(** The input of three characters [e] with an acute accent (two bytes),
    line break, [b]. *)
Definition e_acute_newline_b : gostring := [xc3; xa9; x0a] ++ lit "b".

(** Constructors with positional arguments. *)
Definition mkError (p : Location) (message : string) : Error :=
  {| Error_Location := p; Message := message |}.

(** The error a run ends with, if it returns. *)
Definition err_of {A} (o : outcome A) : option Error :=
  match o with Ok _ l => err l | _ => None end.

(** A lexer over [source], entered at its first byte. *)
Definition run {A} (m : M A) (source : string) : outcome A :=
  m (new_lexer (lit source)).

(** The quote character ['\'']. *)
Definition single_quote : rune := chr "'".

(** A quoted literal with a bad escape that is never closed: scanning it
    calls [error] twice, first for the escape and then for the missing
    closing quote. *)
Definition bad_escape_unterminated : string := "'\q".

Definition mkToken (p : Location) (t : Kind) (value : gostring) : Token :=
  {| Token_Location := p; Token_Kind := t; Value := value |}.

(** The reading in which the end-of-input token is located from
    [end - 1]. *)
Definition emitEOF_located_from_end (l : lexer) : Prop :=
  exists l', emitEOF l = Ok tt l' /\
             tokens l' = tokens l ++ [mkToken (loc l (end_ l - 1)) EOF []].

(** The lexer over [abc] once [a] has been read and skipped and [bc] has
    been read: the pending span is [bc]. *)
Definition abc_pending_bc : lexer :=
  {| input := lit "abc"; tokens := []; start := 1; end_ := 3; width := 1;
     err := None |}.

(** What the cursor operations leave alone. *)
Definition same_frame (l l' : lexer) : Prop :=
  input l' = input l /\ tokens l' = tokens l /\ start l' = start l /\
  err l' = err l.

(** The lexer [backup] leaves. *)
Definition backed (l : lexer) : lexer := set_end l (end_ l - width l).

(** The reading of the stale width in which a failed [acceptWord] that
    consumed something always leaves the width of a consumed character, so
    that a [backup] right after it moves [end] below the restored offset. *)
Definition acceptWord_backup_moves_below (word : gostring) (l : lexer) : Prop :=
  forall l',
    acceptWord word l = Ok false l' -> ahead l <> [] ->
    end_ l' = end_ l /\ 1 <= width l' /\ end_ (backed l') < end_ l.

(** The invariant of the lexer state: [0 <= start <= end <= len(input)]. *)
Definition Inv (l : lexer) : Prop :=
  0 <= start l /\ start l <= end_ l /\ end_ l <= len (input l).

(** The value of a digit character, letters in either case; this is the
    notion of a digit the description of [scanDigits] refers to. *)
Definition digit_value (ch : rune) : option Z :=
  if (chr "0" <=? ch) && (ch <=? chr "9") then Some (ch - chr "0")
  else if (chr "a" <=? ch) && (ch <=? chr "f") then Some (ch - chr "a" + 10)
  else if (chr "A" <=? ch) && (ch <=? chr "F") then Some (ch - chr "A" + 10)
  else None.

(** A valid digit in base [base]. *)
Definition is_digit (base : Z) (ch : rune) : bool :=
  match digit_value ch with
  | Some v => v <? base
  | None => false
  end.

(** How many leading runes of a stream are digits in [base]. *)
Definition digits_found (base : Z) (stream : list rune) : nat :=
  List.length (take_while (is_digit base) stream).

(** How many hexadecimal digits the markers [x], [u] and [U] ask for. *)
Definition hex_count (marker : rune) : option nat :=
  if marker =? chr "x" then Some 2%nat
  else if marker =? chr "u" then Some 4%nat
  else if marker =? chr "U" then Some 8%nat
  else None.

(** The first case of the [switch] of [scanEscape]. *)
Definition is_single (quote marker : rune) : bool :=
  existsb (Z.eqb marker) (single_escapes ++ [quote]).

(** The escape character. *)
Definition backslash : rune := chr "\".

(** One round of the loop of [scanString] on a character that does not
    end it. *)
Definition scan_step (quote ch : rune) : M rune :=
  if ch =? backslash then scanEscape quote else next.

(** The logical elements of a literal delimited by [quote]: a plain
    character, or a backslash with a well-formed escape. *)
Inductive element (quote : rune) : list rune -> Prop :=
| el_plain c :
    0 <= c -> c <> quote -> c <> newline -> c <> backslash ->
    element quote [c]
| el_single m :
    quote <> backslash -> is_single quote m = true ->
    element quote [backslash; m]
| el_octal d1 d2 d3 :
    quote <> backslash -> d1 <> quote ->
    is_digit 8 d1 = true -> is_digit 8 d2 = true -> is_digit 8 d3 = true ->
    element quote [backslash; d1; d2; d3]
| el_hex m count ds :
    quote <> backslash -> m <> quote -> hex_count m = Some count ->
    List.length ds = count -> Forall (fun d => is_digit 16 d = true) ds ->
    element quote (backslash :: m :: ds).

(** The location the description of [loc] gives to a byte offset of the
    buffer: the characters that lie before the offset are scanned, a
    newline starting a new line and any other character widening the
    column. *)
Definition location_of_offset (s : gostring) (offset : Z) : Location :=
  fold_left advance (runes (firstn (Z.to_nat offset) s)) (mkloc 1 0).

(** A string of ASCII bytes, each below [utf8.RuneSelf]. *)
Definition ascii_only (s : gostring) : Prop :=
  Forall (fun b => byteval b < utf8.RuneSelf) s.

(** The values of the tokens emitted so far, put end to end, are the
    input up to [start]: nothing was skipped. *)
Definition covered (l : lexer) : Prop :=
  List.concat (map Value (tokens l)) = firstn (Z.to_nat (start l)) (input l).

(** What a scanner may change: it moves [end] forward, within the input,
    and may record an error if none is on record; the input, the tokens
    and [start] are left alone and a recorded error is kept. *)
Definition scans (l l' : lexer) : Prop :=
  input l' = input l /\ tokens l' = tokens l /\ start l' = start l /\
  end_ l <= end_ l' /\ end_ l' <= Z.max (end_ l) (len (input l)) /\
  (forall e, err l = Some e -> err l' = Some e).

(** A method that returns from every lexer whose [end] is not negative,
    changing only what a scanner may change. *)
Definition safe {A} (m : M A) : Prop :=
  forall l, 0 <= end_ l -> exists a l', m l = Ok a l' /\ scans l l'.

(** * Properties *)

(** ** Decoding *)

Lemma byteval_nonneg b : 0 <= byteval b.
Proof. unfold byteval. lia. Qed.

Lemma len_nonneg s : 0 <= len s.
Proof. unfold len. lia. Qed.

Lemma len_cons b s : len (b :: s) = 1 + len s.
Proof. unfold len. simpl List.length. lia. Qed.

Ltac split_ifs :=
  repeat match goal with
         | |- context [if ?c then _ else _] => destruct c
         | |- context [match ?t with [] => _ | _ :: _ => _ end] => destruct t
         end.

(** On a non-empty string the decoder consumes at least one byte and never
    more than the string holds. *)
Lemma DecodeRune_width s r w :
  utf8.DecodeRuneInString s = (r, w) -> s <> [] -> 1 <= w <= len s.
Proof.
  destruct s as [|b0 t]; [congruence|]. intros H _. revert H.
  unfold utf8.DecodeRuneInString.
  destruct (utf8.acceptRanges _) as [lo hi].
  generalize (utf8.first (byteval b0)); intro x.
  split_ifs; intro H; inversion H; subst; rewrite ?len_cons;
    repeat match goal with |- context [len ?u] => pose proof (len_nonneg u); generalize dependent (len u); intros end; lia.
Qed.

Lemma DecodeRune_width_le4 s r w :
  utf8.DecodeRuneInString s = (r, w) -> 0 <= w <= 4.
Proof.
  destruct s as [|b0 t]; simpl.
  - intro H; inversion H; lia.
  - destruct (utf8.acceptRanges _) as [lo hi].
    generalize (utf8.first (byteval b0)); intro x.
    split_ifs; intro H; inversion H; lia.
Qed.

(** A decoded rune is never negative, so it is never the sentinel [eof]. *)
Lemma DecodeRune_fst_nonneg s : 0 <= fst (utf8.DecodeRuneInString s).
Proof.
  assert (L : forall a m, 0 <= a -> 0 <= Z.land a m)
    by (intros; apply Z.land_nonneg; auto).
  assert (S : forall a n, 0 <= a -> 0 <= Z.shiftl a n)
    by (intros; apply Z.shiftl_nonneg; auto).
  assert (O : forall a b, 0 <= a -> 0 <= b -> 0 <= Z.lor a b)
    by (intros; apply Z.lor_nonneg; auto).
  assert (E : 0 <= utf8.RuneError) by (unfold utf8.RuneError; lia).
  destruct s as [|b0 t]; unfold utf8.DecodeRuneInString.
  - exact E.
  - destruct (utf8.acceptRanges _) as [lo hi].
    generalize (utf8.first (byteval b0)); intro x.
    split_ifs; cbv beta iota delta [fst]; auto 10 using byteval_nonneg.
Qed.

Lemma DecodeRune_nonneg s r w :
  utf8.DecodeRuneInString s = (r, w) -> 0 <= r.
Proof.
  intro H. pose proof (DecodeRune_fst_nonneg s) as N.
  rewrite H in N. exact N.
Qed.

(** ** The runes of a string *)

Lemma slice_from_length s w :
  0 <= w -> len (slice_from s w) = Z.max 0 (len s - w).
Proof.
  intro H. unfold len, slice_from. rewrite length_skipn. lia.
Qed.

Lemma slice_from_slice s i w :
  0 <= i -> 0 <= w -> slice_from (slice_from s i) w = slice_from s (i + w).
Proof.
  intros Hi Hw. unfold slice_from. rewrite skipn_skipn. f_equal. lia.
Qed.

Lemma slice_from_nil_iff s i : 0 <= i -> slice_from s i = [] <-> len s <= i.
Proof.
  intro Hi. pose proof (slice_from_length s i Hi) as L. split; intro H.
  - rewrite H in L. unfold len in L at 1. simpl in L. lia.
  - destruct (slice_from s i) as [|b t] eqn:E; [reflexivity|].
    rewrite len_cons in L. pose proof (len_nonneg t). lia.
Qed.

Lemma runes_fuel_enough n :
  forall m s, (List.length s <= n)%nat -> (List.length s <= m)%nat ->
              runes_fuel n s = runes_fuel m s.
Proof.
  induction n as [|n IH]; intros m s Hn Hm.
  - destruct s; [destruct m; reflexivity | simpl in Hn; lia].
  - destruct s as [|b t]; [destruct m; reflexivity|].
    destruct m as [|m]; [simpl in Hm; lia|].
    cbn [runes_fuel].
    destruct (utf8.DecodeRuneInString (b :: t)) as [r w] eqn:E.
    f_equal.
    assert (W : 1 <= w <= len (b :: t))
      by (eapply DecodeRune_width; [exact E | discriminate]).
    pose proof (slice_from_length (b :: t) w ltac:(lia)) as L.
    unfold len in L, W. simpl List.length in *. apply IH; lia.
Qed.

Lemma runes_nil : runes [] = [].
Proof. reflexivity. Qed.

Lemma runes_cons s r w :
  s <> [] -> utf8.DecodeRuneInString s = (r, w) ->
  runes s = r :: runes (slice_from s w).
Proof.
  intros Hs E. destruct s as [|b t]; [congruence|].
  unfold runes. cbn [List.length runes_fuel]. rewrite E. f_equal.
  assert (W : 1 <= w <= len (b :: t))
    by (eapply DecodeRune_width; [exact E | discriminate]).
  pose proof (slice_from_length (b :: t) w ltac:(lia)) as L.
  unfold len in L, W. simpl List.length in *. apply runes_fuel_enough; lia.
Qed.

Lemma runes_nil_inv s : runes s = [] -> s = [].
Proof.
  destruct s as [|b t]; [reflexivity|]. intro H.
  destruct (utf8.DecodeRuneInString (b :: t)) as [r w] eqn:E.
  rewrite (runes_cons (b :: t) r w ltac:(discriminate) E) in H. discriminate.
Qed.

Lemma runes_nonneg s : Forall (fun r => 0 <= r) (runes s).
Proof.
  remember (List.length s) as n eqn:Hn. revert s Hn.
  induction n as [n IH] using lt_wf_ind. intros s Hn.
  destruct s as [|b t]; [constructor|].
  destruct (utf8.DecodeRuneInString (b :: t)) as [r w] eqn:E.
  rewrite (runes_cons (b :: t) r w ltac:(discriminate) E). constructor.
  - eapply DecodeRune_nonneg; exact E.
  - assert (W : 1 <= w <= len (b :: t))
      by (eapply DecodeRune_width; [exact E | discriminate]).
    pose proof (slice_from_length (b :: t) w ltac:(lia)) as L.
    unfold len in L, W. simpl List.length in *.
    eapply IH; [|reflexivity]. lia.
Qed.

Lemma runes_length s : (List.length (runes s) <= List.length s)%nat.
Proof.
  remember (List.length s) as n eqn:Hn. revert s Hn.
  induction n as [n IH] using lt_wf_ind. intros s Hn.
  destruct s as [|b t]; [simpl; lia|].
  destruct (utf8.DecodeRuneInString (b :: t)) as [r w] eqn:E.
  rewrite (runes_cons (b :: t) r w ltac:(discriminate) E).
  assert (W : 1 <= w <= len (b :: t))
    by (eapply DecodeRune_width; [exact E | discriminate]).
  pose proof (slice_from_length (b :: t) w ltac:(lia)) as L.
  unfold len in L, W. simpl List.length in *.
  specialize (IH (List.length (slice_from (b :: t) w)) ltac:(lia) _ eq_refl).
  lia.
Qed.

(** ** The cursor seen as a stream of runes *)

Lemma next_spec l :
  0 <= end_ l ->
  match ahead l with
  | [] => next l = Ok eof (set_width l 0)
  | r :: rs =>
    exists w, 1 <= w <= 4 /\ end_ l + w <= len (input l) /\ 0 <= r /\
              next l = Ok r (moved l w) /\ ahead (moved l w) = rs
  end.
Proof.
  intro H0. unfold ahead. destruct (rest l) as [|b t] eqn:R.
  - rewrite runes_nil. unfold next.
    apply (slice_from_nil_iff _ _ H0) in R.
    destruct (Z.leb_spec (len (input l)) (end_ l)); [reflexivity | lia].
  - destruct (utf8.DecodeRuneInString (b :: t)) as [r w] eqn:E.
    rewrite (runes_cons (b :: t) r w ltac:(discriminate) E).
    assert (W : 1 <= w <= len (b :: t))
      by (eapply DecodeRune_width; [exact E | discriminate]).
    pose proof (DecodeRune_width_le4 _ _ _ E) as W4.
    pose proof (slice_from_length (input l) (end_ l) H0) as L.
    fold (rest l) in L. rewrite R in L.
    exists w. repeat split; try lia.
    + eapply DecodeRune_nonneg; exact E.
    + unfold next.
      destruct (Z.leb_spec (len (input l)) (end_ l)); [lia|].
      destruct (Z.ltb_spec (end_ l) 0); [lia|].
      fold (rest l). rewrite R, E. reflexivity.
    + unfold rest, moved. cbn [input end_ set_end set_width].
      rewrite <- slice_from_slice by lia. fold (rest l). rewrite R.
      reflexivity.
Qed.

(** ** Location calculator *)

Lemma take_drop_while {A} (f : A -> bool) xs :
  take_while f xs ++ drop_while f xs = xs.
Proof.
  induction xs as [|x xs IH]; simpl; [reflexivity|].
  destruct (f x); simpl; [f_equal; exact IH | reflexivity].
Qed.

(** The loop stops at index [pos]; up to there it folds [advance]. *)
Lemma loc_loop_fold rs :
  forall i pos line column,
    i <= pos ->
    loc_loop rs i pos line column =
    fold_left advance (firstn (Z.to_nat (pos - i)) rs) (mkloc line column).
Proof.
  induction rs as [|ch rs IH]; intros i pos line column Hi.
  - rewrite firstn_nil. reflexivity.
  - cbn [loc_loop]. destruct (Z.eqb_spec i pos) as [->|Hne].
    + rewrite Z.sub_diag. reflexivity.
    + replace (Z.to_nat (pos - i)) with (S (Z.to_nat (pos - (i + 1)))) by lia.
      cbn [firstn fold_left]. unfold advance at 2. fold newline.
      cbn [Line Column mkloc].
      destruct (ch =? newline); apply IH; lia.
Qed.

Lemma fold_advance_snoc rs ch p :
  fold_left advance (rs ++ [ch]) p = advance (fold_left advance rs p) ch.
Proof. rewrite fold_left_app. reflexivity. Qed.

Lemma advance_Line p ch :
  Line (advance p ch) = if ch =? newline then Line p + 1 else Line p.
Proof. unfold advance. destruct (ch =? newline); reflexivity. Qed.

Lemma advance_Column p ch :
  Column (advance p ch) = if ch =? newline then 0 else Column p + 1.
Proof. unfold advance. destruct (ch =? newline); reflexivity. Qed.

Lemma fold_advance_line rs line :
  Line (fold_left advance rs (mkloc line 0)) =
  line + Z.of_nat (count_occ Z.eq_dec rs newline).
Proof.
  induction rs as [|ch rs IH] using rev_ind.
  - simpl. lia.
  - rewrite fold_advance_snoc, count_occ_app, advance_Line, IH.
    cbn [count_occ]. destruct (Z.eqb_spec ch newline) as [->|Hne].
    + destruct (Z.eq_dec newline newline); [lia | congruence].
    + destruct (Z.eq_dec ch newline); [congruence | lia].
Qed.

Lemma fold_advance_column rs line :
  Column (fold_left advance rs (mkloc line 0)) =
  Z.of_nat (List.length (current_line rs)).
Proof.
  induction rs as [|ch rs IH] using rev_ind.
  - reflexivity.
  - rewrite fold_advance_snoc, advance_Column, IH. unfold current_line.
    rewrite rev_app_distr. cbn [rev app take_while].
    change (not_newline ch) with (negb (ch =? newline)).
    destruct (ch =? newline); cbn [negb List.length]; lia.
Qed.

Lemma loc_fold l pos :
  0 <= pos ->
  loc l pos =
  fold_left advance (firstn (Z.to_nat pos) (runes (input l))) (mkloc 1 0).
Proof.
  intro H. unfold loc. rewrite loc_loop_fold by lia.
  rewrite Z.sub_0_r. reflexivity.
Qed.

(** An offset that no index of the loop reaches, a negative one for
    instance, makes [loc] scan the whole input. *)
Lemma loc_loop_all rs :
  forall i pos line column,
    pos < i ->
    loc_loop rs i pos line column = fold_left advance rs (mkloc line column).
Proof.
  induction rs as [|ch rs IH]; intros i pos line column Hi.
  - reflexivity.
  - cbn [loc_loop fold_left]. destruct (Z.eqb_spec i pos); [lia|].
    unfold advance at 2. fold newline. cbn [Line Column mkloc].
    destruct (ch =? newline); apply IH; lia.
Qed.

(** X4: [loc] reads its argument as an index into the decoded characters
    of the input: the line is 1 plus the number of newlines among the
    characters before that index, the column is the number of characters
    since the last of them; at index 0 the location is line 1, column 0,
    and in the input made of [a], a newline and [b] the character of
    index 2 is at line 2, column 0. *)
Theorem loc_line_column (l : lexer) (pos : Z) :
  0 <= pos ->
  let before := firstn (Z.to_nat pos) (runes (input l)) in
  loc l pos = fold_left advance before (mkloc 1 0) /\
  Line (loc l pos) = 1 + Z.of_nat (count_occ Z.eq_dec before newline) /\
  Column (loc l pos) = Z.of_nat (List.length (current_line before)) /\
  loc l 0 = mkloc 1 0 /\
  loc (new_lexer a_newline_b) 2 = mkloc 2 0 /\
  loc (new_lexer a_newline_b) 0 = mkloc 1 0.
Proof.
  intros H before. rewrite (loc_fold l pos H). fold before.
  split; [reflexivity|]. split; [apply fold_advance_line|].
  split; [apply fold_advance_column|].
  split; [apply (loc_fold l 0); lia|]. split; reflexivity.
Qed.

(** The cursor counts bytes and [loc] counts characters: behind a
    two-byte character the two drift apart.  Here [b] is the character of
    index 2 and starts at byte 3. *)
Remark loc_counts_characters :
  runes e_acute_newline_b = [233; newline; chr "b"] /\
  loc (new_lexer e_acute_newline_b) 2 = mkloc 2 0 /\
  loc (new_lexer e_acute_newline_b) 3 = mkloc 2 1.
Proof. repeat split. Qed.

Lemma loc_line_column_witness :
  Line (loc (new_lexer a_newline_b) 2) = 2 /\
  Column (loc (new_lexer a_newline_b) 2) = 0.
Proof.
  destruct (loc_line_column (new_lexer a_newline_b) 2 ltac:(lia))
    as (_ & HL & HC & _).
  split; [rewrite HL | rewrite HC]; reflexivity.
Defined.

(** C6: [loc] is handed byte offsets ([start], [start - 1], [end - 1]) but
    compares its argument with the index of the decoded character, so
    behind a character of several bytes it scans too far.  On the input
    [a], line break, [b] it answers as described: [b] at line 2, column 0
    and [a] at line 1, column 0.  On the input made of [e] with an acute
    accent (two bytes), a line break and [b], the character [b] starts at
    offset 3: the description puts it at line 2, column 0, and [loc]
    answers line 2, column 1, which is also where the token emitted for
    [b] is located. *)
Theorem loc_scans_past_byte_offset :
  loc (new_lexer a_newline_b) 2 = location_of_offset a_newline_b 2 /\
  loc (new_lexer a_newline_b) 0 = location_of_offset a_newline_b 0 /\
  (exists l2 l3,
      (next ;;; next) (new_lexer e_acute_newline_b) = Ok newline l2 /\
      end_ l2 = 3 /\ next l2 = Ok (chr "b") l3) /\
  location_of_offset e_acute_newline_b 3 = mkloc 2 0 /\
  loc (new_lexer e_acute_newline_b) 3 = mkloc 2 1 /\
  (exists l',
      (next ;;; next ;;; ignore ;;; next ;;; emit (OtherKind "Identifier"))
        (new_lexer e_acute_newline_b) = Ok tt l' /\
      tokens l' = [mkToken (mkloc 2 1) (OtherKind "Identifier") (lit "b")]).
Proof.
  split; [reflexivity|]. split; [reflexivity|].
  split; [eexists; eexists; repeat split; reflexivity|].
  split; [reflexivity|]. split; [reflexivity|].
  eexists. split; reflexivity.
Qed.

(** ** Error reporter *)

(** C1: [error] records a diagnostic located at offset [end - 1] only if
    none has been recorded yet; once one is recorded every later call
    leaves the lexer as it is, so of two errors raised in sequence the
    first in scan order is the one that stays. *)
Theorem error_first_wins (l : lexer) (m1 m2 : string) :
  (err l = None ->
   error m1 l = Ok None (set_err l (Some (mkError (loc l (end_ l - 1)) m1)))) /\
  (err l <> None -> error m1 l = Ok None l) /\
  (exists l1, error m1 l = Ok None l1 /\ error m2 l1 = Ok None l1 /\
              (err l = None ->
               err l1 = Some (mkError (loc l (end_ l - 1)) m1))) /\
  err_of (run (next ;;; scanString single_quote) bad_escape_unterminated) =
  Some (mkError (mkloc 1 2) invalid_char_escape).
Proof.
  unfold error. destruct (err l) as [e|] eqn:E.
  - split; [discriminate|]. split; [reflexivity|]. split; [|reflexivity].
    exists l. rewrite E. repeat split. discriminate.
  - split; [reflexivity|]. split; [congruence|]. split; [|reflexivity].
    eexists. split; [reflexivity|]. cbn [err set_err]. split; reflexivity.
Qed.

Lemma error_first_wins_witness :
  err_of (error literal_not_terminated (new_lexer (lit "ab"))) =
  Some (mkError (mkloc 1 2) literal_not_terminated) /\
  err_of ((error invalid_char_escape ;;; error literal_not_terminated)
            (new_lexer (lit "ab"))) =
  Some (mkError (mkloc 1 2) invalid_char_escape).
Proof.
  destruct (error_first_wins (new_lexer (lit "ab")) literal_not_terminated
                             invalid_char_escape) as (H1 & _).
  destruct (error_first_wins (new_lexer (lit "ab")) invalid_char_escape
                             literal_not_terminated) as (_ & _ & H3 & _).
  split.
  - rewrite (H1 eq_refl). reflexivity.
  - destruct H3 as (l1 & E1 & E2 & E3).
    unfold bind. rewrite E1, E2. cbn [err_of]. rewrite (E3 eq_refl).
    reflexivity.
Defined.

(** ** Token emitter *)

(** With [bc] pending, the end-of-input token is located from offset 0,
    the one before [start], and not from offset 2, the one before [end]. *)
Lemma emitEOF_not_located_from_end :
  run (next ;;; ignore ;;; next ;;; next) "abc" = Ok (chr "c") abc_pending_bc /\
  ~ emitEOF_located_from_end abc_pending_bc.
Proof.
  split; [reflexivity|].
  intros (l' & H & T). injection H as <-. vm_compute in T. discriminate.
Qed.

(** C2, amended: [emitEOF] appends one token of kind [EOF] whose location
    is computed from offset [start - 1], and closes the pending span; when
    nothing is pending ([start = end]) that offset is [end - 1]. *)
Theorem emitEOF_located_from_start (l : lexer) :
  exists l',
    emitEOF l = Ok tt l' /\
    tokens l' = tokens l ++ [mkToken (loc l (start l - 1)) EOF []] /\
    start l' = end_ l /\ end_ l' = end_ l /\ input l' = input l /\
    err l' = err l /\
    (start l = end_ l -> emitEOF_located_from_end l).
Proof.
  eexists. split; [reflexivity|]. cbn. repeat split.
  intro E. eexists. split; [reflexivity|]. cbn. rewrite E. reflexivity.
Qed.

Lemma emitEOF_located_from_start_witness :
  emitEOF_located_from_end (new_lexer (lit "")).
Proof.
  destruct (emitEOF_located_from_start (new_lexer (lit "")))
    as (l' & _ & _ & _ & _ & _ & _ & H).
  apply H. reflexivity.
Defined.

(** ** Cursor *)

Lemma same_frame_refl l : same_frame l l.
Proof. repeat split. Qed.

Lemma same_frame_trans l1 l2 l3 :
  same_frame l1 l2 -> same_frame l2 l3 -> same_frame l1 l3.
Proof.
  intros (A1 & A2 & A3 & A4) (B1 & B2 & B3 & B4).
  repeat split; congruence.
Qed.

Lemma same_frame_moved l w : same_frame l (moved l w).
Proof. repeat split. Qed.

Lemma same_frame_set_width l w : same_frame l (set_width l w).
Proof. repeat split. Qed.

Lemma same_frame_set_end l l' e : same_frame l l' -> same_frame l (set_end l' e).
Proof. intros (A1 & A2 & A3 & A4). repeat split; assumption. Qed.

Lemma ahead_ext l1 l2 :
  input l1 = input l2 -> end_ l1 = end_ l2 -> ahead l1 = ahead l2.
Proof. intros A B. unfold ahead, rest. rewrite A, B. reflexivity. Qed.

Lemma ahead_length l : (List.length (ahead l) <= List.length (input l))%nat.
Proof.
  unfold ahead, rest, slice_from.
  pose proof (runes_length (skipn (Z.to_nat (end_ l)) (input l))) as H.
  rewrite length_skipn in H. lia.
Qed.

(** [ContainsRune] only finds runes the decoder can produce; the sentinel
    [eof] is not one of them. *)
Lemma ContainsRune_nonneg valid r : ContainsRune valid r = true -> 0 <= r.
Proof.
  unfold ContainsRune. intro H. apply existsb_exists in H.
  destruct H as (x & Hin & Hx). apply Z.eqb_eq in Hx. subst x.
  pose proof (runes_nonneg valid) as F. rewrite Forall_forall in F.
  apply F. exact Hin.
Qed.

Lemma ContainsRune_eof valid : ContainsRune valid eof = false.
Proof.
  destruct (ContainsRune valid eof) eqn:E; [|reflexivity].
  apply ContainsRune_nonneg in E. unfold eof in E. lia.
Qed.

Lemma backed_moved l w : ahead (backed (moved l w)) = ahead l.
Proof.
  apply ahead_ext; [reflexivity|].
  unfold backed, moved. cbn [end_ width set_end set_width]. lia.
Qed.

Lemma backed_eof l : ahead (backed (set_width l 0)) = ahead l.
Proof.
  apply ahead_ext; [reflexivity|].
  unfold backed. cbn [end_ width set_end set_width]. lia.
Qed.

(** [accept]: what it returns and where it leaves the cursor. *)
Lemma accept_spec valid l :
  0 <= end_ l ->
  match ahead l with
  | [] => accept valid l = Ok false (backed (set_width l 0))
  | r :: rs =>
    exists w, 1 <= w <= 4 /\ end_ l + w <= len (input l) /\
      ahead (moved l w) = rs /\
      accept valid l =
      if ContainsRune valid r then Ok true (moved l w)
      else Ok false (backed (moved l w))
  end.
Proof.
  intro H0. pose proof (next_spec l H0) as N. unfold accept, bind.
  destruct (ahead l) as [|r rs].
  - rewrite N, ContainsRune_eof. reflexivity.
  - destruct N as (w & W & L & R & N & A). exists w.
    rewrite N. repeat split; try lia; try assumption.
    destruct (ContainsRune valid r); reflexivity.
Qed.

(** The loop of [acceptRun] stops right after the first rune that is not
    in the set, or at the end of the input; one [backup] then puts the
    cursor in front of that rune. *)
Lemma acceptRun_loop_spec valid :
  forall rs l fuel,
    0 <= end_ l -> ahead l = rs -> (List.length rs < fuel)%nat ->
    exists l',
      acceptRun_loop fuel valid l = Ok tt l' /\ same_frame l l' /\
      ahead (backed l') = drop_while (ContainsRune valid) rs /\
      end_ l <= end_ (backed l') /\
      end_ (backed l') <= Z.max (end_ l) (len (input l)).
Proof.
  induction rs as [|r rs IH]; intros l fuel H0 A F;
    (destruct fuel as [|fuel]; [simpl in F; lia|]);
    pose proof (next_spec l H0) as N; rewrite A in N;
    cbn [acceptRun_loop]; unfold bind.
  - rewrite N, ContainsRune_eof. eexists. split; [reflexivity|].
    split; [apply same_frame_set_width|].
    split; [rewrite backed_eof; exact A|].
    unfold backed. cbn [end_ width set_end set_width]. lia.
  - destruct N as (w & W & L & R & N & A'). rewrite N.
    cbn [drop_while]. destruct (ContainsRune valid r).
    + destruct (IH (moved l w) fuel) as (l' & E & Fr & D & Lo & Hi).
      * unfold moved. cbn [end_ set_end]. lia.
      * exact A'.
      * simpl in F. lia.
      * exists l'. split; [exact E|].
        split; [eapply same_frame_trans; [apply same_frame_moved | exact Fr]|].
        split; [exact D|].
        unfold moved in Lo, Hi. cbn [end_ input set_end set_width] in Lo, Hi.
        lia.
    + eexists. split; [reflexivity|]. split; [apply same_frame_moved|].
      split; [rewrite backed_moved; exact A|].
      unfold backed, moved. cbn [end_ width set_end set_width]. lia.
Qed.

Lemma acceptRun_spec valid l :
  0 <= end_ l ->
  exists l',
    acceptRun valid l = Ok tt l' /\ same_frame l l' /\
    ahead l' = drop_while (ContainsRune valid) (ahead l) /\
    end_ l <= end_ l' /\ end_ l' <= Z.max (end_ l) (len (input l)).
Proof.
  intro H0.
  destruct (acceptRun_loop_spec valid (ahead l) l (S (List.length (input l)))
              H0 eq_refl) as (l' & E & Fr & D & Lo & Hi).
  - pose proof (ahead_length l). lia.
  - exists (backed l'). unfold acceptRun, bind. rewrite E.
    split; [reflexivity|].
    split; [apply same_frame_set_end; exact Fr|]. auto.
Qed.

(** C8: [accept] tells whether the next character is in the set and, when
    it is not, leaves [end] where it was; [acceptRun] consumes the longest
    run of characters in the set and, after its single [backup], rests
    just before the first rejected character (or at the end of input). *)
Theorem accept_acceptRun_rollback (valid : gostring) (l : lexer) :
  0 <= end_ l ->
  (exists b l',
      accept valid l = Ok b l' /\ same_frame l l' /\
      b = match ahead l with
          | [] => false
          | r :: _ => ContainsRune valid r
          end /\
      (b = false -> end_ l' = end_ l /\ ahead l' = ahead l) /\
      (b = true -> end_ l < end_ l' /\ width l' = end_ l' - end_ l /\
                   ahead l' = tl (ahead l))) /\
  (exists l',
      acceptRun valid l = Ok tt l' /\ same_frame l l' /\
      ahead l = take_while (ContainsRune valid) (ahead l) ++ ahead l' /\
      ahead l' = drop_while (ContainsRune valid) (ahead l) /\
      end_ l <= end_ l').
Proof.
  intro H0. split.
  - pose proof (accept_spec valid l H0) as A.
    destruct (ahead l) as [|r rs] eqn:E.
    + exists false, (backed (set_width l 0)). split; [exact A|].
      split; [apply same_frame_set_end, same_frame_set_width|].
      split; [reflexivity|]. split; [|discriminate]. intros _.
      rewrite backed_eof.
      unfold backed. cbn [end_ width set_end set_width]. split; [lia|exact E].
    + destruct A as (w & W & L & A' & A). destruct (ContainsRune valid r).
      * exists true, (moved l w). split; [exact A|].
        split; [apply same_frame_moved|]. split; [reflexivity|].
        split; [discriminate|]. intros _.
        unfold moved at 1 2 3. cbn [end_ width set_end set_width tl].
        repeat split; [lia | lia | exact A'].
      * exists false, (backed (moved l w)). split; [exact A|].
        split; [apply same_frame_set_end, same_frame_moved|].
        split; [reflexivity|]. split; [|discriminate]. intros _.
        rewrite backed_moved.
        unfold backed, moved. cbn [end_ width set_end set_width].
        split; [lia | exact E].
  - destruct (acceptRun_spec valid l H0) as (l' & E & Fr & D & Lo & _).
    exists l'. split; [exact E|]. split; [exact Fr|].
    split; [rewrite D; symmetry; apply take_drop_while|]. auto.
Qed.

Lemma accept_acceptRun_rollback_witness :
  end_ (backed (moved (new_lexer (lit "abc")) 1)) = 0 /\
  run (accept (lit "xyz")) "abc" =
  Ok false (backed (moved (new_lexer (lit "abc")) 1)) /\
  exists l', run (acceptRun (lit "ab")) "abbacab" = Ok tt l' /\
             ahead l' = runes (lit "cab").
Proof.
  destruct (accept_acceptRun_rollback (lit "ab") (new_lexer (lit "abbacab"))
              ltac:(cbn; lia)) as (_ & l' & E & _ & _ & D & _).
  split; [reflexivity|]. split; [reflexivity|].
  exists l'. split; [exact E|]. rewrite D. reflexivity.
Defined.

(** The loop of [acceptWord]: either every rune of the word is matched, or
    the attempt stops at the first [next] that returns something else and
    [end] is put back to [pos].  In the second case [l1] is the lexer in
    front of that [next] and [l2] the one it leaves. *)
Lemma acceptWord_loop_spec pos :
  forall wd l,
    Forall (fun r => 0 <= r) wd -> 0 <= end_ l ->
    (exists l',
        acceptWord_loop pos wd l = Ok true l' /\ same_frame l l' /\
        ahead l = wd ++ ahead l' /\ end_ l <= end_ l' /\
        end_ l' <= Z.max (end_ l) (len (input l))) \/
    (exists pre ch post l1 r l2,
        wd = pre ++ ch :: post /\ ahead l = pre ++ ahead l1 /\
        0 <= end_ l1 /\ same_frame l l1 /\
        next l1 = Ok r l2 /\ r <> ch /\
        acceptWord_loop pos wd l = Ok false (set_end l2 pos)).
Proof.
  induction wd as [|ch wd IH]; intros l Hw H0.
  - left. exists l. split; [reflexivity|]. split; [apply same_frame_refl|].
    split; [reflexivity|]. lia.
  - apply Forall_cons_iff in Hw. destruct Hw as [Hch Hw'].
    pose proof (next_spec l H0) as N. cbn [acceptWord_loop].
    destruct (ahead l) as [|r rs] eqn:A.
    + right. exists [], ch, wd, l, eof, (set_width l 0).
      rewrite N. cbn [app].
      assert (Hne : eof <> ch) by (unfold eof; lia).
      destruct (Z.eqb_spec eof ch); [contradiction|].
      repeat split; auto.
    + destruct N as (w & W & L & R & N & A').
      rewrite N. destruct (Z.eqb_spec r ch) as [->|Hne].
      * assert (H1 : 0 <= end_ (moved l w))
          by (unfold moved; cbn [end_ set_end]; lia).
        destruct (IH (moved l w) Hw' H1)
          as [(l' & E & Fr & Ah & Lo & Hi)
             |(pre & c & post & l1 & r' & l2 & Ew & Ah & H1' & Fr & N1 & Hr & E)].
        -- left. exists l'. split; [exact E|].
           split; [eapply same_frame_trans; [apply same_frame_moved|exact Fr]|].
           split; [cbn [app]; rewrite <- Ah, A'; reflexivity|].
           unfold moved in Lo, Hi.
           cbn [end_ input set_end set_width] in Lo, Hi. lia.
        -- right. exists (ch :: pre), c, post, l1, r', l2.
           split; [rewrite Ew; reflexivity|].
           split; [cbn [app]; rewrite <- Ah, A'; reflexivity|].
           split; [exact H1'|].
           split; [eapply same_frame_trans; [apply same_frame_moved|exact Fr]|].
           auto.
      * right. exists [], ch, wd, l, r, (moved l w). cbn [app].
        repeat split; auto.
Qed.

(** C7: [acceptWord] is all or nothing: it returns [true] with [end]
    moved exactly past the characters of the literal, or [false] with
    [end] where it was before the call. *)
Theorem acceptWord_all_or_nothing (word : gostring) (l : lexer) :
  0 <= end_ l ->
  exists b l',
    acceptWord word l = Ok b l' /\ same_frame l l' /\
    (b = true -> ahead l = runes word ++ ahead l' /\ end_ l <= end_ l') /\
    (b = false -> end_ l' = end_ l /\ ahead l' = ahead l /\
                  forall tail, ahead l <> runes word ++ tail).
Proof.
  intro H0. unfold acceptWord.
  destruct (acceptWord_loop_spec (end_ l) (runes word) l (runes_nonneg word) H0)
    as [(l' & E & Fr & Ah & Lo & Hi)
       |(pre & c & post & l1 & r & l2 & Ew & Ah & H1 & Fr & N1 & Hr & E)].
  - exists true, l'. split; [exact E|]. split; [exact Fr|].
    split; [auto | discriminate].
  - exists false, (set_end l2 (end_ l)). split; [exact E|].
    assert (Fr2 : same_frame l1 l2).
    { pose proof (next_spec l1 H1) as N. destruct (ahead l1).
      - rewrite N in N1. injection N1 as _ <-. apply same_frame_set_width.
      - destruct N as (w & _ & _ & _ & N & _). rewrite N in N1.
        injection N1 as _ <-. apply same_frame_moved. }
    split; [apply same_frame_set_end; eapply same_frame_trans; eassumption|].
    split; [discriminate|]. intros _.
    split; [reflexivity|].
    split.
    + apply ahead_ext; [|reflexivity]. cbn [input set_end].
      destruct Fr as (I1 & _), Fr2 as (I2 & _). congruence.
    + intros tail Ht. rewrite Ah, Ew, <- app_assoc in Ht.
      apply app_inv_head in Ht. cbn [app] in Ht.
      pose proof (next_spec l1 H1) as N. rewrite Ht in N.
      destruct N as (w & _ & _ & _ & N & _). rewrite N in N1.
      injection N1 as -> _. contradiction.
Qed.

Lemma acceptWord_all_or_nothing_witness :
  exists l2,
    run (acceptWord (lit "true")) "trux" = Ok false l2 /\ end_ l2 = 0.
Proof.
  destruct (acceptWord_all_or_nothing (lit "true") (new_lexer (lit "trux"))
              ltac:(cbn; lia)) as (b & l2 & E & _ & _ & Hf).
  assert (Hb : b = false).
  { pose proof E as E'. vm_compute in E'. congruence. }
  subst b. exists l2. split; [exact E|].
  destruct (Hf eq_refl) as (He & _). exact He.
Defined.

(** The width [next] records is the width of the rune decoded at the
    scanning head, and 0 at the end of the input. *)
Lemma next_width l r l' :
  0 <= end_ l -> next l = Ok r l' ->
  width l' = snd (utf8.DecodeRuneInString (rest l)).
Proof.
  intros H0. unfold next.
  destruct (Z.leb_spec (len (input l)) (end_ l)) as [Hle|Hlt].
  - intros [= _ <-]. apply (slice_from_nil_iff _ _ H0) in Hle.
    unfold rest. rewrite Hle. reflexivity.
  - destruct (Z.ltb_spec (end_ l) 0); [lia|]. fold (rest l).
    destruct (utf8.DecodeRuneInString (rest l)) as [r0 w].
    intros [= _ <-]. reflexivity.
Qed.

(** On the input [a] the literal [ab] fails at the end of the input: [a]
    was consumed, yet the last [next] recorded width 0 and a [backup]
    right after does not move [end]. *)
Lemma acceptWord_backup_at_eof_stays :
  ~ acceptWord_backup_moves_below (lit "ab") (new_lexer (lit "a")).
Proof.
  intro H.
  destruct (H (set_end (set_width (moved (new_lexer (lit "a")) 1) 0) 0) eq_refl)
    as (_ & W & _).
  - vm_compute. discriminate.
  - vm_compute in W. apply W. reflexivity.
Qed.

(** C10, amended: when [acceptWord] returns [false], [end] is back at its
    value before the call, while the recorded width is the one left by the
    last [next] of the attempt: the width of the character that did not
    match, or 0 when the attempt ran into the end of the input.  A
    [backup] right after moves [end] below the restored offset by that
    width, hence not at all in the second case. *)
Theorem acceptWord_stale_width (word : gostring) (l l' : lexer) :
  0 <= end_ l -> acceptWord word l = Ok false l' ->
  end_ l' = end_ l /\
  backup l' = Ok tt (backed l') /\ end_ (backed l') = end_ l - width l' /\
  exists pre ch post l1,
    runes word = pre ++ ch :: post /\ ahead l = pre ++ ahead l1 /\
    same_frame l l1 /\ hd eof (ahead l1) <> ch /\
    width l' = snd (utf8.DecodeRuneInString (rest l1)) /\
    (ahead l1 = [] -> width l' = 0 /\ end_ (backed l') = end_ l) /\
    (ahead l1 <> [] -> 1 <= width l' <= 4 /\ end_ (backed l') < end_ l).
Proof.
  intros H0 E. unfold acceptWord in E.
  destruct (acceptWord_loop_spec (end_ l) (runes word) l (runes_nonneg word) H0)
    as [(l0 & E0 & _)
       |(pre & c & post & l1 & r & l2 & Ew & Ah & H1 & Fr & N1 & Hr & E0)];
    rewrite E0 in E; [discriminate|]. injection E as <-.
  pose proof (next_width l1 r l2 H1 N1) as Wd.
  pose proof (next_spec l1 H1) as N.
  split; [reflexivity|]. split; [reflexivity|]. split; [reflexivity|].
  exists pre, c, post, l1.
  split; [exact Ew|]. split; [exact Ah|]. split; [exact Fr|].
  assert (Wl : width (set_end l2 (end_ l)) = width l2) by reflexivity.
  assert (Bl : end_ (backed (set_end l2 (end_ l))) = end_ l - width l2)
    by reflexivity.
  rewrite Wl, Bl. clear Wl Bl.
  destruct (ahead l1) as [|r1 rs].
  - rewrite N in N1. injection N1 as <- <-. cbn [hd width set_width].
    split; [exact Hr|]. split; [exact Wd|].
    split; [intros _; lia | congruence].
  - destruct N as (w & W & _ & _ & N & _). rewrite N in N1.
    injection N1 as <- <-. cbn [hd]. split; [exact Hr|].
    split; [exact Wd|]. split; [discriminate|]. intros _.
    unfold moved. cbn [width set_end set_width]. lia.
Qed.

Lemma acceptWord_stale_width_witness :
  exists l',
    run (acceptWord (lit "ab")) "ax" = Ok false l' /\
    end_ l' = 0 /\ width l' = 1 /\ end_ (backed l') = -1.
Proof.
  eexists. split; [reflexivity|].
  destruct (acceptWord_stale_width (lit "ab") (new_lexer (lit "ax")) _
              ltac:(cbn; lia) eq_refl) as (He & _ & Hb & _).
  split; [exact He|]. split; [reflexivity|]. exact Hb.
Defined.

(** ** The invariant of the lexer state *)

Lemma Inv_frame l l' :
  Inv l -> same_frame l l' -> end_ l <= end_ l' -> end_ l' <= len (input l) ->
  Inv l'.
Proof.
  intros (A & B & C) (I & _ & S & _) Lo Hi. unfold Inv.
  rewrite I, S. lia.
Qed.

Lemma next_Inv l : Inv l -> exists r l', next l = Ok r l' /\ Inv l' /\ Inv (backed l').
Proof.
  intros HI. pose proof HI as (A & B & C).
  pose proof (next_spec l ltac:(lia)) as N.
  destruct (ahead l) as [|r rs].
  - exists eof, (set_width l 0). split; [exact N|].
    unfold Inv, backed. cbn [input start end_ width set_end set_width]. lia.
  - destruct N as (w & W & L & _ & N & _). exists r, (moved l w).
    split; [exact N|].
    unfold Inv, backed, moved. cbn [input start end_ width set_end set_width].
    lia.
Qed.

Lemma word_Inv l : Inv l -> exists v, word l = Ok v l.
Proof.
  intros (A & B & C). unfold word.
  destruct (Z.leb_spec 0 (start l)); [|lia].
  destruct (Z.leb_spec (start l) (end_ l)); [|lia].
  destruct (Z.leb_spec (end_ l) (len (input l))); [|lia].
  eexists. reflexivity.
Qed.

Lemma close_span_Inv l ts : Inv l -> Inv (set_start (set_tokens l ts) (end_ l)).
Proof. intros (A & B & C). unfold Inv. cbn. lia. Qed.

(** C9: every cursor and emitter operation returns and keeps
    [0 <= start <= end <= len(input)]; [backup] does so when it undoes the
    [next] that has just been made. *)
Theorem invariant_preserved (l : lexer) (valid wd value : gostring) (t : Kind) :
  Inv l ->
  (exists r l', next l = Ok r l' /\ Inv l') /\
  (exists r l', peek l = Ok r l' /\ Inv l' /\ end_ l' = end_ l) /\
  (forall r l1, next l = Ok r l1 ->
                exists l', backup l1 = Ok tt l' /\ Inv l' /\ end_ l' = end_ l) /\
  (exists b l', accept valid l = Ok b l' /\ Inv l') /\
  (exists l', acceptRun valid l = Ok tt l' /\ Inv l') /\
  (exists b l', acceptWord wd l = Ok b l' /\ Inv l') /\
  (exists l', emit t l = Ok tt l' /\ Inv l') /\
  (exists l', emitValue t value l = Ok tt l' /\ Inv l') /\
  (exists l', ignore l = Ok tt l' /\ Inv l') /\
  (exists l', emitEOF l = Ok tt l' /\ Inv l').
Proof.
  intro HI. pose proof HI as (A & B & C).
  assert (H0 : 0 <= end_ l) by lia.
  assert (Bk : forall r l1, next l = Ok r l1 ->
                            Inv (backed l1) /\ end_ (backed l1) = end_ l).
  { intros r l1 N1. destruct (next_Inv l HI) as (r' & l' & N & _ & Ib).
    rewrite N in N1. injection N1 as _ <-. split; [exact Ib|].
    pose proof (next_spec l H0) as S. destruct (ahead l).
    - rewrite S in N. injection N as _ <-.
      unfold backed. cbn [end_ width set_end set_width]. lia.
    - destruct S as (w & _ & _ & _ & S & _). rewrite S in N.
      injection N as _ <-.
      unfold backed, moved. cbn [end_ width set_end set_width]. lia. }
  repeat apply conj.
  - destruct (next_Inv l HI) as (r & l' & N & I' & _). eauto.
  - destruct (next_Inv l HI) as (r & l' & N & _ & _).
    destruct (Bk r l' N) as (Ib & Eb).
    exists r, (backed l'). unfold peek, bind. rewrite N. auto.
  - intros r l1 N. destruct (Bk r l1 N). exists (backed l1). auto.
  - destruct (next_Inv l HI) as (r & l' & N & I' & Ib).
    unfold accept, bind. rewrite N.
    destruct (ContainsRune valid r).
    + exists true, l'. split; [reflexivity | exact I'].
    + exists false, (backed l'). split; [reflexivity | exact Ib].
  - destruct (acceptRun_spec valid l H0) as (l' & E & Fr & _ & Lo & Hi).
    exists l'. split; [exact E|]. apply (Inv_frame l); auto. lia.
  - unfold acceptWord.
    destruct (acceptWord_loop_spec (end_ l) (runes wd) l (runes_nonneg wd) H0)
      as [(l' & E & Fr & _ & Lo & Hi)
         |(pre & c & post & l1 & r & l2 & _ & _ & H1 & Fr & N1 & _ & E)].
    + exists true, l'. split; [exact E|]. apply (Inv_frame l); auto. lia.
    + exists false, (set_end l2 (end_ l)). split; [exact E|].
      apply (Inv_frame l); auto; [|cbn [end_ set_end]; lia..].
      apply same_frame_set_end. eapply same_frame_trans; [exact Fr|].
      pose proof (next_spec l1 H1) as N. destruct (ahead l1).
      * rewrite N in N1. injection N1 as _ <-. apply same_frame_set_width.
      * destruct N as (w & _ & _ & _ & N & _). rewrite N in N1.
        injection N1 as _ <-. apply same_frame_moved.
  - destruct (word_Inv l HI) as (v & Wv). unfold emit, bind. rewrite Wv.
    eexists. split; [reflexivity|]. apply close_span_Inv, HI.
  - eexists. split; [reflexivity|]. apply close_span_Inv, HI.
  - eexists. split; [reflexivity|]. unfold Inv. cbn. lia.
  - eexists. split; [reflexivity|]. apply close_span_Inv, HI.
Qed.

Lemma invariant_preserved_witness :
  Inv (new_lexer (lit "ab")) /\
  exists l', run (acceptRun (lit "a")) "ab" = Ok tt l' /\ Inv l'.
Proof.
  assert (I : Inv (new_lexer (lit "ab"))) by (unfold Inv; cbn; lia).
  split; [exact I|].
  destruct (invariant_preserved (new_lexer (lit "ab")) (lit "a") [] [] EOF I)
    as (_ & _ & _ & _ & H & _).
  exact H.
Defined.

(** ** Digits *)

Lemma testbit_32 n : 0 <= n -> Z.testbit 32 n = (n =? 5).
Proof.
  intro H. change 32 with (2 ^ 5). rewrite Z.pow2_bits_eqb by lia.
  apply Z.eqb_sym.
Qed.

(** [lower] sets bit 5: it adds 32 unless the bit is already there. *)
Lemma lower_spec ch :
  lower ch = if Z.testbit ch 5 then ch else ch + 32.
Proof.
  unfold lower. change (chr "a" - chr "A") with 32.
  destruct (Z.testbit ch 5) eqn:B.
  - apply Z.bits_inj'. intros n Hn. rewrite Z.lor_spec, testbit_32 by lia.
    destruct (Z.eqb_spec n 5) as [->|]; [rewrite B|]; reflexivity.
  - assert (L : Z.land 32 ch = 0).
    { apply Z.bits_inj'. intros n Hn.
      rewrite Z.land_spec, testbit_32, Z.bits_0 by lia.
      destruct (Z.eqb_spec n 5) as [->|]; [rewrite B|]; reflexivity. }
    rewrite <- (Z.lxor_lor _ _ L), <- (Z.add_nocarry_lxor _ _ L). lia.
Qed.

Lemma testbit5_lower_case ch : 97 <= ch <= 102 -> Z.testbit ch 5 = true.
Proof.
  intro H.
  assert (C : ch = 97 \/ ch = 98 \/ ch = 99 \/ ch = 100 \/ ch = 101 \/ ch = 102)
    by lia.
  repeat (destruct C as [->|C]; [reflexivity|]). subst. reflexivity.
Qed.

Lemma testbit5_upper_case ch : 65 <= ch <= 70 -> Z.testbit ch 5 = false.
Proof.
  intro H.
  assert (C : ch = 65 \/ ch = 66 \/ ch = 67 \/ ch = 68 \/ ch = 69 \/ ch = 70)
    by lia.
  repeat (destruct C as [->|C]; [reflexivity|]). subst. reflexivity.
Qed.

(** [digitVal] is the digit value, and 16 on anything that is no digit. *)
Lemma digitVal_digit_value ch :
  digitVal ch = match digit_value ch with Some v => v | None => 16 end.
Proof.
  unfold digitVal, digit_value.
  change (chr "0") with 48. change (chr "9") with 57.
  change (chr "a") with 97. change (chr "f") with 102.
  change (chr "A") with 65. change (chr "F") with 70.
  destruct (Z.leb_spec 48 ch), (Z.leb_spec ch 57); cbn [andb];
    try reflexivity;
    (destruct (Z.leb_spec 97 ch), (Z.leb_spec ch 102); cbn [andb];
     [ rewrite lower_spec, testbit5_lower_case by lia;
       destruct (Z.leb_spec 97 ch), (Z.leb_spec ch 102); cbn [andb];
       try lia; reflexivity
     | .. ]);
    (destruct (Z.leb_spec 65 ch), (Z.leb_spec ch 70); cbn [andb];
     [ rewrite lower_spec, testbit5_upper_case by lia;
       destruct (Z.leb_spec 97 (ch + 32)), (Z.leb_spec (ch + 32) 102);
       cbn [andb]; try lia; f_equal; lia
     | .. ]);
    rewrite lower_spec; destruct (Z.testbit ch 5);
    match goal with
    | |- context [(97 <=? ?x) && (?x <=? 102)] =>
      destruct (Z.leb_spec 97 x), (Z.leb_spec x 102); cbn [andb];
      try reflexivity; lia
    end.
Qed.

Lemma digit_value_range ch v : digit_value ch = Some v -> 0 <= v < 16.
Proof.
  unfold digit_value.
  change (chr "0") with 48. change (chr "9") with 57.
  change (chr "a") with 97. change (chr "f") with 102.
  change (chr "A") with 65. change (chr "F") with 70.
  destruct (Z.leb_spec 48 ch), (Z.leb_spec ch 57); cbn [andb];
    try (intros [= <-]; lia);
    (destruct (Z.leb_spec 97 ch), (Z.leb_spec ch 102); cbn [andb];
     try (intros [= <-]; lia));
    (destruct (Z.leb_spec 65 ch), (Z.leb_spec ch 70); cbn [andb];
     try (intros [= <-]; lia)); discriminate.
Qed.

(** For the bases [digitVal] is made for, its test is digit validity. *)
Lemma digitVal_is_digit base ch :
  base <= 16 -> (digitVal ch <? base) = is_digit base ch.
Proof.
  intro Hb. rewrite digitVal_digit_value. unfold is_digit.
  destruct (digit_value ch); [reflexivity|].
  destruct (Z.ltb_spec 16 base); [lia | reflexivity].
Qed.

Lemma is_digit_eof base : is_digit base eof = false.
Proof. reflexivity. Qed.

(** ** The escape scanner *)

(** The loop of [scanDigits] over the stream made of [ch] and the runes
    ahead: it makes as many rounds as there are leading digits, [n] at
    most, and each round reads one rune. *)
Lemma scanDigits_loop_spec base :
  base <= 16 ->
  forall fuel rs l ch n,
    0 <= end_ l -> ahead l = rs -> (Z.to_nat n <= fuel)%nat ->
    let j := Nat.min (digits_found base (ch :: rs)) (Z.to_nat n) in
    exists l0,
      scanDigits_loop fuel ch base n l =
      Ok (nth j (ch :: rs) eof, n - Z.of_nat j) l0 /\
      same_frame l l0 /\ ahead l0 = skipn j rs /\ 0 <= end_ l0.
Proof.
  intros Hb. unfold digits_found.
  induction fuel as [|fuel IH]; intros rs l ch n H0 A F;
    cbn [take_while]; rewrite <- (digitVal_is_digit base ch Hb).
  - destruct (Z.ltb_spec 0 n); [lia|].
    replace (Z.to_nat n) with O by lia. rewrite Nat.min_0_r.
    exists l. cbn [scanDigits_loop].
    destruct (Z.ltb_spec 0 n); [lia|]. cbn [andb nth skipn].
    rewrite Z.sub_0_r. repeat split; auto.
  - cbn [scanDigits_loop].
    destruct (Z.ltb_spec 0 n) as [Hn|Hn]; cbn [andb].
    + destruct (digitVal ch <? base) eqn:V.
      * cbn [List.length]. unfold bind.
        pose proof (next_spec l H0) as N. rewrite A in N.
        replace (Z.to_nat n) with (S (Z.to_nat (n - 1))) by lia.
        cbn [Nat.min].
        destruct rs as [|r rs].
        -- rewrite N.
           destruct (IH [] (set_width l 0) eof (n - 1)) as (l0 & E & Fr & Ah & E0).
           ++ exact H0.
           ++ rewrite <- A. apply ahead_ext; reflexivity.
           ++ lia.
           ++ cbn [take_while] in E. rewrite is_digit_eof in E.
              cbn [List.length Nat.min nth] in E.
              exists l0. rewrite E.
              cbn [take_while nth List.length Nat.min skipn].
              split; [f_equal; f_equal; lia|].
              split; [eapply same_frame_trans;
                      [apply same_frame_set_width | exact Fr]|].
              split; [|exact E0]. rewrite Ah. apply skipn_nil.
        -- destruct N as (w & W & L & R & N & A'). rewrite N.
           destruct (IH rs (moved l w) r (n - 1)) as (l0 & E & Fr & Ah & E0).
           ++ unfold moved. cbn [end_ set_end]. lia.
           ++ exact A'.
           ++ lia.
           ++ exists l0. rewrite E. cbn [nth skipn].
              split; [f_equal; f_equal; lia|].
              split; [eapply same_frame_trans;
                      [apply same_frame_moved | exact Fr]|].
              split; [exact Ah | exact E0].
      * cbn [List.length Nat.min nth skipn]. exists l.
        rewrite Z.sub_0_r. repeat split; auto.
    + replace (Z.to_nat n) with O by lia. rewrite Nat.min_0_r.
      exists l. cbn [nth skipn]. rewrite Z.sub_0_r. repeat split; auto.
Qed.

Lemma error_returns message l : exists l', error message l = Ok None l'.
Proof. unfold error. destruct (err l); eexists; reflexivity. Qed.

(** [scanDigits]: the loop, then one call of [error] if it stopped early.
    [l0] is the lexer the loop leaves. *)
Lemma scanDigits_spec ch base n l :
  0 <= end_ l -> base <= 16 ->
  let found := digits_found base (ch :: ahead l) in
  let rounds := Nat.min found (Z.to_nat n) in
  exists l0 l',
    scanDigits ch base n l = Ok (nth rounds (ch :: ahead l) eof) l' /\
    same_frame l l0 /\ ahead l0 = skipn rounds (ahead l) /\ 0 <= end_ l0 /\
    (Z.of_nat found < n -> error invalid_char_escape l0 = Ok None l') /\
    (n <= Z.of_nat found -> l' = l0).
Proof.
  intros H0 Hb found rounds.
  destruct (scanDigits_loop_spec base Hb (Z.to_nat n) (ahead l) l ch n H0
              eq_refl (Nat.le_refl _)) as (l0 & E & Fr & Ah & E0).
  fold found in E, Ah. fold rounds in E, Ah.
  unfold scanDigits, bind. rewrite E. cbn [fst snd].
  destruct (Z.ltb_spec 0 (n - Z.of_nat rounds)) as [Hlt|Hge].
  - destruct (error_returns invalid_char_escape l0) as (l' & Ee).
    exists l0, l'. rewrite Ee.
    split; [reflexivity|]. split; [exact Fr|]. split; [exact Ah|].
    split; [exact E0|]. split; [auto|].
    intros. unfold rounds in Hlt. lia.
  - exists l0, l0.
    split; [reflexivity|]. split; [exact Fr|]. split; [exact Ah|].
    split; [exact E0|]. split; [|auto].
    intros. unfold rounds in Hge. lia.
Qed.

(** C5: [scanDigits] reports "invalid char escape" exactly when the
    stream made of the start character and the runes ahead begins with
    fewer than [n] digits of base [base], a digit being [0-9] or a letter
    [a-f] in either case with a value below the base. *)
Theorem scanDigits_reports_iff (ch base n : Z) (l : lexer) :
  0 <= end_ l -> base <= 16 ->
  let found := Z.of_nat (digits_found base (ch :: ahead l)) in
  let rounds := Z.to_nat (Z.min found n) in
  exists r l0 l',
    scanDigits ch base n l = Ok r l' /\
    same_frame l l0 /\ ahead l0 = skipn rounds (ahead l) /\
    r = nth rounds (ch :: ahead l) eof /\
    (found < n -> error invalid_char_escape l0 = Ok None l') /\
    (n <= found -> l' = l0) /\
    (err l = None ->
     (err l' = Some (mkError (loc l0 (end_ l0 - 1)) invalid_char_escape) <->
      found < n) /\
     (err l' = None <-> n <= found)).
Proof.
  intros H0 Hb found rounds.
  destruct (scanDigits_spec ch base n l H0 Hb) as (l0 & l' & E & Fr & Ah & E0 & R & NR).
  assert (J : Nat.min (digits_found base (ch :: ahead l)) (Z.to_nat n) = rounds)
    by (unfold rounds, found; lia).
  rewrite J in E, Ah. fold found in R, NR.
  assert (Er : err l0 = err l) by (destruct Fr as (_ & _ & _ & Er); exact Er).
  exists (nth rounds (ch :: ahead l) eof), l0, l'.
  split; [exact E|]. split; [exact Fr|]. split; [exact Ah|].
  split; [reflexivity|]. split; [exact R|]. split; [exact NR|].
  intro En. destruct (Z.lt_ge_cases found n) as [Hlt|Hge].
  - specialize (R Hlt). unfold error in R. rewrite Er, En in R.
    injection R as <-. cbn [err set_err].
    split; split; auto; try lia; discriminate.
  - rewrite (NR Hge), Er, En.
    split; split; auto; try lia; discriminate.
Qed.

Lemma scanDigits_reports_iff_witness :
  err_of (run (next ;;; scanDigits (chr "4") 16 2) "4g") =
  Some (mkError (mkloc 1 1) invalid_char_escape) /\
  err_of (run (next ;;; scanDigits (chr "4") 16 2) "4Fz") = None.
Proof.
  pose (l1 := moved (new_lexer (lit "4g")) 1).
  pose (l2 := moved (new_lexer (lit "4Fz")) 1).
  assert (P1 : 0 <= end_ l1) by (vm_compute; discriminate).
  assert (P2 : 0 <= end_ l2) by (vm_compute; discriminate).
  assert (B : 16 <= 16) by lia.
  destruct (scanDigits_reports_iff (chr "4") 16 2 l1 P1 B)
    as (r1 & a1 & b1 & E1 & _ & _ & _ & R1 & _).
  destruct (scanDigits_reports_iff (chr "4") 16 2 l2 P2 B)
    as (r2 & a2 & b2 & E2 & _ & _ & _ & _ & _ & R2).
  split.
  - change (run (next ;;; scanDigits (chr "4") 16 2) "4g")
      with (scanDigits (chr "4") 16 2 l1).
    rewrite E1. cbn [err_of]. clear R1. vm_compute in E1.
    injection E1 as _ <-. reflexivity.
  - change (run (next ;;; scanDigits (chr "4") 16 2) "4Fz")
      with (scanDigits (chr "4") 16 2 l2).
    rewrite E2. cbn [err_of]. apply (R2 eq_refl). vm_compute. discriminate.
Defined.

(** [next] returns the first rune ahead, [eof] when there is none, and
    leaves the others ahead. *)
Lemma next_hd_tl l :
  0 <= end_ l ->
  exists l1,
    next l = Ok (hd eof (ahead l)) l1 /\ ahead l1 = tl (ahead l) /\
    same_frame l l1 /\ 0 <= end_ l1.
Proof.
  intro H0. pose proof (next_spec l H0) as N.
  destruct (ahead l) as [|r rs] eqn:A.
  - exists (set_width l 0). split; [exact N|].
    split; [transitivity (ahead l);
            [apply ahead_ext; reflexivity | rewrite A; reflexivity]|].
    split; [apply same_frame_set_width | exact H0].
  - destruct N as (w & W & _ & _ & N & A'). exists (moved l w).
    split; [exact N|]. split; [rewrite A'; reflexivity|].
    split; [apply same_frame_moved|].
    unfold moved. cbn [end_ set_end]. lia.
Qed.

Lemma take_while_firstn {A} (f : A -> bool) xs :
  forall j, (j <= List.length (take_while f xs))%nat ->
            Forall (fun x => f x = true) (firstn j xs).
Proof.
  induction xs as [|x xs IH]; intros j Hj.
  - rewrite firstn_nil. constructor.
  - destruct j as [|j]; [constructor|]. cbn [take_while] in Hj.
    destruct (f x) eqn:Fx; cbn [List.length] in Hj; [|lia].
    cbn [firstn]. constructor; [exact Fx | apply IH; lia].
Qed.

Lemma is_single_In quote marker :
  is_single quote marker = true <-> In marker (single_escapes ++ [quote]).
Proof.
  unfold is_single. rewrite existsb_exists. split.
  - intros (x & Hin & Hx). apply Z.eqb_eq in Hx. subst. exact Hin.
  - intro Hin. exists marker. split; [exact Hin | apply Z.eqb_refl].
Qed.

Lemma is_single_other quote marker :
  marker <> quote -> existsb (Z.eqb marker) single_escapes = false ->
  is_single quote marker = false.
Proof.
  intros Hq Hs. unfold is_single. rewrite existsb_app, Hs. cbn.
  destruct (Z.eqb_spec marker quote); [contradiction | reflexivity].
Qed.

Lemma octal_not_single marker :
  is_octal marker = true ->
  existsb (Z.eqb marker) single_escapes = false /\ hex_count marker = None.
Proof.
  unfold is_octal, hex_count. change (chr "0") with 48. change (chr "7") with 55.
  intro H. apply andb_true_iff in H. destruct H as [A B].
  apply Z.leb_le in A, B. cbn.
  repeat match goal with
         | |- context [marker =? ?k] =>
           destruct (Z.eqb_spec marker k); [lia|]
         end.
  split; reflexivity.
Qed.

Lemma hex_not_single marker count :
  hex_count marker = Some count ->
  existsb (Z.eqb marker) single_escapes = false /\ is_octal marker = false /\
  Z.of_nat count <> 0.
Proof.
  unfold is_octal, hex_count. change (chr "0") with 48. change (chr "7") with 55.
  change (chr "x") with 120. change (chr "u") with 117.
  change (chr "U") with 85. cbn.
  destruct (Z.eqb_spec marker 120) as [->|];
    [intros [= <-]; repeat split; lia|].
  destruct (Z.eqb_spec marker 117) as [->|];
    [intros [= <-]; repeat split; lia|].
  destruct (Z.eqb_spec marker 85) as [->|];
    [intros [= <-]; repeat split; lia | discriminate].
Qed.

(** Reading a stream through [next]: the rune returned, then the rest. *)
Lemma digits_found_hd_tl base rs :
  digits_found base (hd eof rs :: tl rs) = digits_found base rs.
Proof.
  destruct rs as [|r rs]; [|reflexivity].
  unfold digits_found. cbn [hd tl take_while]. rewrite is_digit_eof.
  reflexivity.
Qed.

Lemma nth_hd_tl j rs : nth j (hd eof rs :: tl rs) eof = nth j rs eof.
Proof.
  destruct rs as [|r rs]; [|reflexivity].
  destruct j as [|[|j]]; reflexivity.
Qed.

Lemma skipn_tl {A} j (rs : list A) : skipn j (tl rs) = skipn (S j) rs.
Proof. destruct rs; [apply skipn_nil | reflexivity]. Qed.

Section Escape.

Variable quote : rune.
Variable l : lexer.
Hypothesis cursor_ok : 0 <= end_ l.

(** The character after the backslash, and what follows it. *)
Let marker := hd eof (ahead l).
Let after := tl (ahead l).

Lemma scanEscape_single :
  is_single quote marker = true ->
  exists l',
    scanEscape quote l = Ok (hd eof after) l' /\ same_frame l l' /\
    ahead l' = tl after /\ 0 <= end_ l'.
Proof.
  intro Hs.
  destruct (next_hd_tl l cursor_ok) as (l1 & N1 & A1 & F1 & E1).
  destruct (next_hd_tl l1 E1) as (l2 & N2 & A2 & F2 & E2).
  exists l2. unfold scanEscape, bind. rewrite N1.
  fold marker. fold (is_single quote marker). rewrite Hs, N2, A1.
  split; [reflexivity|].
  split; [eapply same_frame_trans; eassumption|].
  split; [rewrite A2, A1; reflexivity | exact E2].
Qed.

Lemma scanEscape_octal :
  marker <> quote -> is_octal marker = true ->
  let found := digits_found 8 (ahead l) in
  let rounds := Nat.min found 3 in
  exists l0 l',
    scanEscape quote l = Ok (nth rounds (ahead l) eof) l' /\
    same_frame l l0 /\ ahead l0 = skipn (S rounds) (ahead l) /\
    0 <= end_ l0 /\ (1 <= rounds <= 3)%nat /\
    Forall (fun d => is_digit 8 d = true) (firstn rounds (ahead l)) /\
    ((found < 3)%nat -> error invalid_char_escape l0 = Ok None l') /\
    ((3 <= found)%nat -> l' = l0).
Proof.
  intros Hq Ho found rounds.
  destruct (octal_not_single marker Ho) as (Hs & _).
  destruct (next_hd_tl l cursor_ok) as (l1 & N1 & A1 & F1 & E1).
  fold marker in N1. fold after in A1.
  assert (Al : ahead l = marker :: after).
  { unfold marker, after. destruct (ahead l) as [|r rs] eqn:A;
      [|reflexivity].
    unfold marker in Ho. discriminate Ho. }
  destruct (scanDigits_spec marker 8 3 l1 E1 ltac:(lia))
    as (l0 & l' & E & Fr & Ah & E0 & R & NR).
  rewrite A1, <- Al in E, R, NR. rewrite A1 in Ah.
  fold found in E, R, NR, Ah. change (Z.to_nat 3) with 3%nat in E, Ah.
  fold rounds in E, Ah.
  assert (F1' : (1 <= found)%nat).
  { unfold found, digits_found. rewrite Al. cbn [take_while].
    rewrite <- (digitVal_is_digit 8 marker) by lia.
    assert (D : (digitVal marker <? 8) = true).
    { revert Ho. unfold is_octal, digitVal.
      change (chr "0") with 48. change (chr "7") with 55.
      change (chr "9") with 57. intro Ho.
      apply andb_true_iff in Ho. destruct Ho as [P Q].
      apply Z.leb_le in P, Q.
      destruct (Z.leb_spec 48 marker); [|lia].
      destruct (Z.leb_spec marker 57); [|lia]. cbn [andb].
      apply Z.ltb_lt. lia. }
    rewrite D. cbn [List.length]. lia. }
  exists l0, l'. unfold scanEscape, bind. rewrite N1.
  fold (is_single quote marker).
  rewrite (is_single_other quote marker Hq Hs), Ho.
  split; [exact E|].
  split; [eapply same_frame_trans; eassumption|].
  split; [rewrite Ah; unfold rounds, found; rewrite Al; reflexivity|].
  split; [exact E0|].
  split; [unfold rounds; lia|].
  split; [apply take_while_firstn; unfold rounds, found, digits_found; lia|].
  split; [intro; apply R; lia | intro; apply NR; lia].
Qed.

Lemma scanEscape_hex count :
  marker <> quote -> hex_count marker = Some count ->
  let found := digits_found 16 after in
  let rounds := Nat.min found count in
  exists l0 l',
    scanEscape quote l = Ok (nth rounds after eof) l' /\
    same_frame l l0 /\ ahead l0 = skipn (S rounds) after /\
    0 <= end_ l0 /\
    Forall (fun d => is_digit 16 d = true) (firstn rounds after) /\
    ((found < count)%nat -> error invalid_char_escape l0 = Ok None l') /\
    ((count <= found)%nat -> l' = l0).
Proof.
  intros Hq Hc found rounds.
  destruct (hex_not_single marker count Hc) as (Hs & Ho & _).
  destruct (next_hd_tl l cursor_ok) as (l1 & N1 & A1 & F1 & E1).
  fold marker in N1. fold after in A1.
  destruct (next_hd_tl l1 E1) as (l2 & N2 & A2 & F2 & E2).
  rewrite A1 in N2, A2.
  destruct (scanDigits_spec (hd eof after) 16 (Z.of_nat count) l2 E2
              ltac:(lia)) as (l0 & l' & E & Fr & Ah & E0 & R & NR).
  rewrite A2, digits_found_hd_tl in E, R, NR.
  rewrite A2, digits_found_hd_tl, skipn_tl in Ah.
  rewrite nth_hd_tl in E.
  fold found in E, R, NR, Ah. rewrite Nat2Z.id in E, Ah.
  fold rounds in E, Ah.
  assert (Body : scanEscape quote l =
                 scanDigits (hd eof after) 16 (Z.of_nat count) l2).
  { unfold scanEscape, bind. rewrite N1.
    fold (is_single quote marker).
    rewrite (is_single_other quote marker Hq Hs), Ho.
    revert Hc. unfold hex_count.
    destruct (marker =? chr "x");
      [intros [= <-]; rewrite N2; reflexivity|].
    destruct (marker =? chr "u");
      [intros [= <-]; rewrite N2; reflexivity|].
    destruct (marker =? chr "U");
      [intros [= <-]; rewrite N2; reflexivity | discriminate]. }
  exists l0, l'. rewrite Body.
  split; [exact E|].
  split; [eapply same_frame_trans; [exact F1|];
          eapply same_frame_trans; eassumption|].
  split; [exact Ah|]. split; [exact E0|].
  split; [apply take_while_firstn; unfold rounds, found, digits_found; lia|].
  split; [intro; apply R; lia | intro; apply NR; lia].
Qed.

Lemma scanEscape_other :
  is_single quote marker = false -> is_octal marker = false ->
  hex_count marker = None ->
  exists l1 l',
    next l = Ok marker l1 /\ error invalid_char_escape l1 = Ok None l' /\
    scanEscape quote l = Ok marker l' /\ ahead l1 = after /\
    same_frame l l1 /\ 0 <= end_ l1.
Proof.
  intros Hs Ho Hc.
  destruct (next_hd_tl l cursor_ok) as (l1 & N1 & A1 & F1 & E1).
  fold marker in N1. fold after in A1.
  destruct (error_returns invalid_char_escape l1) as (l' & Ee).
  exists l1, l'. split; [exact N1|]. split; [exact Ee|].
  split; [|auto].
  unfold scanEscape, bind. rewrite N1.
  fold (is_single quote marker). rewrite Hs, Ho.
  revert Hc. unfold hex_count.
  destruct (marker =? chr "x"); [discriminate|].
  destruct (marker =? chr "u"); [discriminate|].
  destruct (marker =? chr "U"); [discriminate|].
  intros _. rewrite Ee. reflexivity.
Qed.

End Escape.

(** C3: [scanEscape] dispatches on the character after the backslash, the
    rows being taken in the order of the [switch]: one of
    [a b f n r t v \] or the active quote is consumed and one further
    character is read; an octal digit opens a run of at most three octal
    digits, itself included, and fewer than three are reported; [x], [u]
    and [U] must be followed by 2, 4 and 8 hexadecimal digits, fewer are
    reported; any other character is reported as "invalid char escape". *)
Theorem scanEscape_dispatch (quote : rune) (l : lexer) :
  0 <= end_ l ->
  let marker := hd eof (ahead l) in
  let after := tl (ahead l) in
  (In marker (single_escapes ++ [quote]) ->
   exists l',
     scanEscape quote l = Ok (hd eof after) l' /\ same_frame l l' /\
     ahead l' = tl after) /\
  (marker <> quote -> is_octal marker = true ->
   let found := digits_found 8 (ahead l) in
   let rounds := Nat.min found 3 in
   exists l0 l',
     scanEscape quote l = Ok (nth rounds (ahead l) eof) l' /\
     same_frame l l0 /\ ahead l0 = skipn (S rounds) (ahead l) /\
     (1 <= rounds <= 3)%nat /\
     Forall (fun d => is_digit 8 d = true) (firstn rounds (ahead l)) /\
     ((found < 3)%nat -> error invalid_char_escape l0 = Ok None l') /\
     ((3 <= found)%nat -> l' = l0)) /\
  (forall count,
      marker <> quote -> hex_count marker = Some count ->
      let found := digits_found 16 after in
      let rounds := Nat.min found count in
      exists l0 l',
        scanEscape quote l = Ok (nth rounds after eof) l' /\
        same_frame l l0 /\ ahead l0 = skipn (S rounds) after /\
        Forall (fun d => is_digit 16 d = true) (firstn rounds after) /\
        ((found < count)%nat -> error invalid_char_escape l0 = Ok None l') /\
        ((count <= found)%nat -> l' = l0)) /\
  (~ In marker (single_escapes ++ [quote]) -> is_octal marker = false ->
   hex_count marker = None ->
   exists l1 l',
     next l = Ok marker l1 /\ error invalid_char_escape l1 = Ok None l' /\
     scanEscape quote l = Ok marker l') /\
  hex_count (chr "x") = Some 2%nat /\ hex_count (chr "u") = Some 4%nat /\
  hex_count (chr "U") = Some 8%nat.
Proof.
  intros H0 marker after. repeat apply conj; try reflexivity.
  - intro Hin. apply is_single_In in Hin.
    destruct (scanEscape_single quote l H0 Hin) as (l' & E & Fr & Ah & _).
    exists l'. auto.
  - intros Hq Ho found rounds.
    destruct (scanEscape_octal quote l H0 Hq Ho)
      as (l0 & l' & E & Fr & Ah & _ & Rd & Fa & R & NR).
    exists l0, l'. split; [exact E|]. split; [exact Fr|]. split; [exact Ah|].
    split; [exact Rd|]. split; [exact Fa|]. split; assumption.
  - intros count Hq Hc found rounds.
    destruct (scanEscape_hex quote l H0 count Hq Hc)
      as (l0 & l' & E & Fr & Ah & _ & Fa & R & NR).
    exists l0, l'. split; [exact E|]. split; [exact Fr|]. split; [exact Ah|].
    split; [exact Fa|]. split; assumption.
  - intros Hin Ho Hc.
    assert (Hs : is_single quote marker = false).
    { destruct (is_single quote marker) eqn:S; [|reflexivity].
      apply is_single_In in S. contradiction. }
    destruct (scanEscape_other quote l H0 Hs Ho Hc)
      as (l1 & l' & N & Ee & E & _).
    exists l1, l'. auto.
Qed.

Lemma scanEscape_dispatch_witness :
  (exists l', run (scanEscape single_quote) "n'" = Ok single_quote l' /\
              ahead l' = []) /\
  (exists l', run (scanEscape single_quote) "101'" = Ok single_quote l' /\
              err l' = None) /\
  (exists l', run (scanEscape single_quote) "x4G" = Ok (chr "G") l' /\
              err l' = Some (mkError (mkloc 1 2) invalid_char_escape)) /\
  (exists l', run (scanEscape single_quote) "q" = Ok (chr "q") l' /\
              err l' = Some (mkError (mkloc 1 0) invalid_char_escape)).
Proof.
  assert (P : forall s, 0 <= end_ (new_lexer (lit s))) by (intro; cbn; lia).
  split; [|split; [|split]].
  - destruct (scanEscape_dispatch single_quote (new_lexer (lit "n'")) (P _))
      as (H & _).
    destruct H as (l' & E & _ & Ah).
    + vm_compute. tauto.
    + exists l'. split; [exact E | exact Ah].
  - destruct (scanEscape_dispatch single_quote (new_lexer (lit "101'")) (P _))
      as (_ & H & _).
    destruct H as (l0 & l' & E & Fr & _ & _ & _ & _ & NR).
    + vm_compute. discriminate.
    + reflexivity.
    + exists l'. split; [exact E|].
      rewrite NR by (vm_compute; lia). destruct Fr as (_ & _ & _ & Er).
      rewrite Er. reflexivity.
  - destruct (scanEscape_dispatch single_quote (new_lexer (lit "x4G")) (P _))
      as (_ & _ & H & _).
    destruct (H 2%nat) as (l0 & l' & E & _ & _ & _ & R & _).
    + vm_compute. discriminate.
    + reflexivity.
    + exists l'. split; [exact E|].
      assert (Lt : (digits_found 16 (tl (ahead (new_lexer (lit "x4G")))) < 2)%nat)
        by (vm_compute; lia).
      specialize (R Lt). pose proof E as E'. vm_compute in E'.
      injection E' as <-. reflexivity.
  - destruct (scanEscape_dispatch single_quote (new_lexer (lit "q")) (P _))
      as (_ & _ & _ & H & _).
    destruct H as (l1 & l' & N & Ee & E).
    + vm_compute. intuition discriminate.
    + reflexivity.
    + reflexivity.
    + exists l'. split; [exact E|].
      pose proof E as E'. vm_compute in E'. injection E' as <-. reflexivity.
Defined.

(** ** The string scanner *)

Lemma scanString_loop_step quote fuel ch n l :
  ch <> quote -> ch <> newline -> ch <> eof ->
  scanString_loop (S fuel) quote ch n l =
  (ch' <- scan_step quote ch ;; scanString_loop fuel quote ch' (n + 1)) l.
Proof.
  intros Hq Hn He. cbn [scanString_loop]. fold newline.
  destruct (Z.eqb_spec ch quote); [contradiction|].
  destruct (Z.eqb_spec ch newline); [contradiction|].
  destruct (Z.eqb_spec ch eof); [contradiction|]. reflexivity.
Qed.

Lemma scanString_loop_quote quote fuel n l :
  scanString_loop fuel quote quote n l = Ok n l.
Proof. destruct fuel; cbn [scanString_loop]; rewrite Z.eqb_refl; reflexivity. Qed.

Lemma scanString_loop_unterminated quote fuel ch n l :
  ch <> quote -> ch = newline \/ ch = eof ->
  scanString_loop fuel quote ch n l =
  (error literal_not_terminated ;;; ret n) l.
Proof.
  intros Hq Ht.
  assert (T : (ch =? chr "010") || (ch =? eof) = true).
  { fold newline. destruct Ht as [->| ->].
    - rewrite Z.eqb_refl. reflexivity.
    - rewrite Z.eqb_refl. apply orb_true_r. }
  destruct fuel; cbn [scanString_loop];
    (destruct (Z.eqb_spec ch quote); [contradiction|]); rewrite T; reflexivity.
Qed.

Lemma error_cursor message l l' :
  error message l = Ok None l' ->
  input l' = input l /\ end_ l' = end_ l /\ tokens l' = tokens l /\
  start l' = start l.
Proof.
  unfold error. destruct (err l); intros [= <-]; repeat split.
Qed.

Lemma error_ahead message l l' :
  error message l = Ok None l' -> ahead l' = ahead l /\ end_ l' = end_ l.
Proof.
  intro E. destruct (error_cursor _ _ _ E) as (I & En & _).
  split; [apply ahead_ext; assumption | exact En].
Qed.

Lemma is_single_quote quote : is_single quote quote = true.
Proof.
  apply is_single_In. apply in_or_app. right. left. reflexivity.
Qed.

Lemma length_tl {A} (xs : list A) : List.length (tl xs) = pred (List.length xs).
Proof. destruct xs; reflexivity. Qed.

(** Whatever follows the backslash, [scanEscape] returns, moves forward,
    and returns [eof] if nothing was ahead. *)
Lemma scanEscape_progress quote l :
  0 <= end_ l ->
  exists ch' l',
    scanEscape quote l = Ok ch' l' /\ 0 <= end_ l' /\ input l' = input l /\
    (ahead l = [] -> ch' = eof) /\
    (List.length (ahead l') <= List.length (tl (ahead l)))%nat.
Proof.
  intro H0. set (marker := hd eof (ahead l)).
  destruct (is_single quote marker) eqn:Hs.
  - destruct (scanEscape_single quote l H0 Hs) as (l' & E & Fr & Ah & E').
    exists (hd eof (tl (ahead l))), l'. split; [exact E|]. split; [exact E'|].
    split; [apply Fr|]. split; [intros ->; reflexivity|].
    rewrite Ah, (length_tl (tl (ahead l))). lia.
  - assert (Hq : marker <> quote).
    { intros ->. rewrite is_single_quote in Hs. discriminate. }
    destruct (is_octal marker) eqn:Ho;
      [|destruct (hex_count marker) as [count|] eqn:Hc].
    + destruct (scanEscape_octal quote l H0 Hq Ho)
        as (l0 & l' & E & Fr & Ah & E0 & Rd & _ & R & NR).
      eexists. exists l'. split; [exact E|].
      assert (X : ahead l' = ahead l0 /\ end_ l' = end_ l0 /\
                  input l' = input l0).
      { destruct (Nat.lt_ge_cases (digits_found 8 (ahead l)) 3) as [Lt|Ge].
        - specialize (R Lt). destruct (error_ahead _ _ _ R).
          destruct (error_cursor _ _ _ R) as (I & _). auto.
        - rewrite (NR Ge). auto. }
      destruct X as (Xa & Xe & Xi).
      split; [lia|]. split; [rewrite Xi; apply Fr|].
      split; [intros ->; destruct (Nat.min _ _); reflexivity|].
      rewrite Xa, Ah, length_skipn, length_tl. lia.
    + destruct (scanEscape_hex quote l H0 count Hq Hc)
        as (l0 & l' & E & Fr & Ah & E0 & _ & R & NR).
      eexists. exists l'. split; [exact E|].
      assert (X : ahead l' = ahead l0 /\ end_ l' = end_ l0 /\
                  input l' = input l0).
      { destruct (Nat.lt_ge_cases (digits_found 16 (tl (ahead l))) count)
          as [Lt|Ge].
        - specialize (R Lt). destruct (error_ahead _ _ _ R).
          destruct (error_cursor _ _ _ R) as (I & _). auto.
        - rewrite (NR Ge). auto. }
      destruct X as (Xa & Xe & Xi).
      split; [lia|]. split; [rewrite Xi; apply Fr|].
      split; [intros ->; destruct (Nat.min _ _); reflexivity|].
      rewrite Xa, Ah, length_skipn. lia.
    + destruct (scanEscape_other quote l H0 Hs Ho Hc)
        as (l1 & l' & N & Ee & E & A1 & F1 & E1).
      exists marker, l'. split; [exact E|].
      destruct (error_ahead _ _ _ Ee) as (Xa & Xe).
      destruct (error_cursor _ _ _ Ee) as (Xi & _).
      split; [lia|]. split; [rewrite Xi; apply F1|].
      split; [unfold marker; intros ->; reflexivity|].
      rewrite Xa, A1. lia.
Qed.

Lemma scan_step_progress quote ch l :
  0 <= end_ l ->
  exists ch' l',
    scan_step quote ch l = Ok ch' l' /\ 0 <= end_ l' /\ input l' = input l /\
    (ahead l = [] -> ch' = eof) /\
    (List.length (ahead l') <= List.length (tl (ahead l)))%nat.
Proof.
  intro H0. unfold scan_step. destruct (ch =? backslash).
  - apply scanEscape_progress. exact H0.
  - destruct (next_hd_tl l H0) as (l1 & N & A1 & F1 & E1).
    exists (hd eof (ahead l)), l1. split; [exact N|]. split; [exact E1|].
    split; [apply F1|]. split; [intros ->; reflexivity|]. rewrite A1. lia.
Qed.

(** The loop of [scanString] returns: a round that is not the last one
    shortens what is ahead, and a round made at the end of the input
    yields [eof], which ends the loop. *)
Lemma scanString_loop_total quote :
  forall fuel ch n l,
    0 <= end_ l -> (ch <> eof -> (List.length (ahead l) < fuel)%nat) ->
    exists n' l', scanString_loop fuel quote ch n l = Ok n' l'.
Proof.
  induction fuel as [|fuel IH]; intros ch n l H0 F.
  - destruct (Z.eq_dec ch quote) as [->|Hq];
      [rewrite scanString_loop_quote; eauto|].
    destruct (Z.eq_dec ch eof) as [He|He]; [|specialize (F He); lia].
    rewrite (scanString_loop_unterminated quote 0 ch n l Hq (or_intror He)).
    destruct (error_returns literal_not_terminated l) as (l' & Ee).
    unfold bind. rewrite Ee. eexists. eexists. reflexivity.
  - destruct (Z.eq_dec ch quote) as [->|Hq];
      [rewrite scanString_loop_quote; eauto|].
    destruct (Z.eq_dec ch newline) as [Hn|Hn];
      [|destruct (Z.eq_dec ch eof) as [He|He]].
    + rewrite (scanString_loop_unterminated quote _ ch n l Hq (or_introl Hn)).
      destruct (error_returns literal_not_terminated l) as (l' & Ee).
      unfold bind. rewrite Ee. eexists. eexists. reflexivity.
    + rewrite (scanString_loop_unterminated quote _ ch n l Hq (or_intror He)).
      destruct (error_returns literal_not_terminated l) as (l' & Ee).
      unfold bind. rewrite Ee. eexists. eexists. reflexivity.
    + rewrite (scanString_loop_step quote fuel ch n l Hq Hn He).
      destruct (scan_step_progress quote ch l H0)
        as (ch' & l' & E & E' & _ & Z' & L).
      unfold bind. rewrite E. apply IH; [exact E'|]. intro Hne.
      specialize (F He). destruct (ahead l) as [|r rs].
      * exfalso. apply Hne. apply Z'. reflexivity.
      * cbn [tl List.length] in *. lia.
Qed.

Lemma scanString_total quote l :
  0 <= end_ l -> exists n l', scanString quote l = Ok n l'.
Proof.
  intro H0. destruct (next_hd_tl l H0) as (l1 & N & A1 & F1 & E1).
  unfold scanString, bind. rewrite N.
  apply scanString_loop_total; [exact E1|]. intros _.
  pose proof (ahead_length l1) as L. destruct F1 as (I & _).
  rewrite I in L. lia.
Qed.

Lemma is_octal_is_digit m : is_octal m = is_digit 8 m.
Proof.
  unfold is_octal, is_digit, digit_value.
  change (chr "0") with 48. change (chr "7") with 55.
  change (chr "9") with 57. change (chr "a") with 97.
  change (chr "f") with 102. change (chr "A") with 65.
  change (chr "F") with 70.
  destruct (Z.leb_spec 48 m), (Z.leb_spec m 55), (Z.leb_spec m 57);
    cbn [andb]; try lia;
    try (symmetry; apply Z.ltb_lt; lia);
    try (symmetry; apply Z.ltb_ge; lia);
    destruct (Z.leb_spec 97 m), (Z.leb_spec m 102); cbn [andb]; try lia;
    try (symmetry; apply Z.ltb_ge; lia);
    destruct (Z.leb_spec 65 m), (Z.leb_spec m 70); cbn [andb]; try lia;
    try (symmetry; apply Z.ltb_ge; lia); reflexivity.
Qed.

Lemma digits_found_app base ds rs :
  Forall (fun d => is_digit base d = true) ds ->
  digits_found base (ds ++ rs) =
  (List.length ds + digits_found base rs)%nat.
Proof.
  unfold digits_found. induction 1 as [|d ds Hd _ IH]; [reflexivity|].
  cbn [app take_while]. rewrite Hd. cbn [List.length]. rewrite IH.
  reflexivity.
Qed.

Lemma nth_0_hd {A} (xs : list A) d : nth 0 xs d = hd d xs.
Proof. destruct xs; reflexivity. Qed.

Lemma skipn_1_tl {A} (xs : list A) : skipn 1 xs = tl xs.
Proof. destruct xs; reflexivity. Qed.

(** An element starts with a character that does not end the loop. *)
Lemma element_head quote e :
  element quote e ->
  exists c t, e = c :: t /\ c <> quote /\ c <> newline /\ c <> eof.
Proof.
  assert (B : backslash <> newline /\ backslash <> eof)
    by (split; discriminate).
  destruct 1; eexists; eexists; (split; [reflexivity|]);
    repeat split; try tauto; try congruence.
  unfold eof. lia.
Qed.

(** One round of the loop scans one element. *)
Lemma scan_step_element quote e rs l :
  element quote e -> 0 <= end_ l -> ahead l = tl (e ++ rs) ->
  exists l',
    scan_step quote (hd eof (e ++ rs)) l = Ok (hd eof rs) l' /\
    ahead l' = tl rs /\ same_frame l l' /\ 0 <= end_ l'.
Proof.
  intros He H0 A. unfold scan_step. destruct He as
      [c Hc Hq Hn Hb | m Hqb Hs | d1 d2 d3 Hqb Hq D1 D2 D3
       | m count ds Hqb Hq Hc Hl Hd]; cbn [app hd tl] in *.
  - destruct (Z.eqb_spec c backslash); [contradiction|].
    destruct (next_hd_tl l H0) as (l1 & N & A1 & F1 & E1).
    exists l1. rewrite A in N, A1. auto.
  - rewrite Z.eqb_refl.
    assert (Hs' : is_single quote (hd eof (ahead l)) = true)
      by (rewrite A; exact Hs).
    destruct (scanEscape_single quote l H0 Hs') as (l' & E & Fr & Ah & E').
    rewrite A in E, Ah. exists l'. auto.
  - rewrite Z.eqb_refl.
    assert (Hq' : hd eof (ahead l) <> quote) by (rewrite A; exact Hq).
    assert (Ho : is_octal (hd eof (ahead l)) = true)
      by (rewrite A, is_octal_is_digit; exact D1).
    destruct (scanEscape_octal quote l H0 Hq' Ho)
      as (l0 & l' & E & Fr & Ah & E0 & _ & _ & _ & NR).
    rewrite A in E, Ah, NR.
    assert (Fd : digits_found 8 (d1 :: d2 :: d3 :: rs) =
                 (3 + digits_found 8 rs)%nat).
    { apply (digits_found_app 8 [d1; d2; d3] rs). repeat constructor; auto. }
    rewrite Fd in E, Ah, NR.
    replace (Nat.min (3 + digits_found 8 rs) 3) with 3%nat in E, Ah by lia.
    change (nth 3 (d1 :: d2 :: d3 :: rs) eof) with (nth 0 rs eof) in E.
    change (skipn 4 (d1 :: d2 :: d3 :: rs)) with (skipn 1 rs) in Ah.
    rewrite nth_0_hd in E. rewrite skipn_1_tl in Ah.
    rewrite (NR ltac:(lia)) in *. exists l0. auto.
  - rewrite Z.eqb_refl.
    assert (Hq' : hd eof (ahead l) <> quote) by (rewrite A; exact Hq).
    assert (Hc' : hex_count (hd eof (ahead l)) = Some count)
      by (rewrite A; exact Hc).
    destruct (scanEscape_hex quote l H0 count Hq' Hc')
      as (l0 & l' & E & Fr & Ah & E0 & _ & _ & NR).
    rewrite A in E, Ah, NR. cbn [tl] in E, Ah, NR.
    rewrite (digits_found_app 16 ds rs Hd), Hl in E, Ah, NR.
    replace (Nat.min (count + digits_found 16 rs) count) with count
      in E, Ah by lia.
    rewrite app_nth2, Hl, Nat.sub_diag, nth_0_hd in E by lia.
    assert (Sk : skipn (S count) (ds ++ rs) = tl rs).
    { rewrite skipn_app, Hl.
      rewrite skipn_all2 by lia.
      replace (S count - count)%nat with 1%nat by lia.
      apply skipn_1_tl. }
    rewrite Sk in Ah.
    rewrite (NR ltac:(lia)) in *. exists l0. auto.
Qed.

(** The loop scans the elements one per round and counts them. *)
Lemma scanString_loop_elements quote :
  forall elems fuel l n tail,
    Forall (element quote) elems -> 0 <= end_ l ->
    ahead l = tl (List.concat elems ++ tail) ->
    (List.length elems <= fuel)%nat ->
    exists l0,
      same_frame l l0 /\ 0 <= end_ l0 /\ ahead l0 = tl tail /\
      scanString_loop fuel quote (hd eof (List.concat elems ++ tail)) n l =
      scanString_loop (fuel - List.length elems) quote (hd eof tail)
                      (n + Z.of_nat (List.length elems)) l0.
Proof.
  induction elems as [|e elems IH]; intros fuel l n tail He H0 A F.
  - exists l. cbn [List.concat app List.length] in *.
    rewrite Nat.sub_0_r, Z.add_0_r.
    split; [apply same_frame_refl|]. auto.
  - apply Forall_cons_iff in He. destruct He as [He Hes].
    cbn [List.concat List.length] in *. rewrite <- app_assoc in *.
    destruct fuel as [|fuel]; [lia|].
    destruct (element_head quote e He) as (c & t & -> & Hq & Hn & Hf).
    rewrite (scanString_loop_step quote fuel _ n l) by (cbn [app hd]; auto).
    destruct (scan_step_element quote (c :: t) (List.concat elems ++ tail) l He H0 A)
      as (l1 & E & A1 & F1 & E1).
    unfold bind. rewrite E.
    destruct (IH fuel l1 (n + 1) tail Hes E1 A1 ltac:(lia))
      as (l0 & Fr & E0 & Ah & El).
    exists l0. split; [eapply same_frame_trans; eassumption|].
    split; [exact E0|]. split; [exact Ah|].
    rewrite El. cbn [Nat.sub]. f_equal. lia.
Qed.

Lemma elements_length quote elems :
  Forall (element quote) elems ->
  (List.length elems <= List.length (List.concat elems))%nat.
Proof.
  induction 1 as [|e elems He _ IH]; [reflexivity|].
  cbn [List.concat List.length]. rewrite length_app.
  destruct (element_head quote e He) as (c & t & -> & _).
  cbn [List.length]. lia.
Qed.

(** C4: after the opening quote [scanString] returns, and on a literal
    made of logical elements (plain characters and escape sequences) it
    counts one per element: followed by the closing quote, it stops right
    after that quote; followed by a line break or by the end of the input,
    it reports "literal not terminated" and returns. *)
Theorem scanString_counts_elements
        (quote : rune) (l : lexer) (elems : list (list rune)) (tail : list rune) :
  0 <= end_ l -> 0 <= quote ->
  Forall (element quote) elems ->
  ahead l = List.concat elems ++ tail ->
  (exists n l', scanString quote l = Ok n l') /\
  (forall rest,
      tail = quote :: rest ->
      exists l',
        scanString quote l = Ok (Z.of_nat (List.length elems)) l' /\
        same_frame l l' /\ ahead l' = rest) /\
  (tail = [] \/ (hd eof tail = newline /\ quote <> newline) ->
   exists l0 l',
     same_frame l l0 /\ ahead l0 = tl tail /\
     error literal_not_terminated l0 = Ok None l' /\
     scanString quote l = Ok (Z.of_nat (List.length elems)) l').
Proof.
  intros H0 Hq He A. split; [apply scanString_total; exact H0|].
  destruct (next_hd_tl l H0) as (l1 & N & A1 & F1 & E1).
  rewrite A in N, A1.
  assert (Fu : (List.length elems <= S (List.length (input l)))%nat).
  { pose proof (elements_length quote elems He) as L1.
    pose proof (ahead_length l) as L2. rewrite A, length_app in L2. lia. }
  destruct (scanString_loop_elements quote elems (S (List.length (input l)))
              l1 0 tail He E1 A1 Fu) as (l0 & Fr & E0 & Ah & El).
  assert (Fl : same_frame l l0) by (eapply same_frame_trans; eassumption).
  assert (Run : scanString quote l =
                scanString_loop (S (List.length (input l)) - List.length elems)
                                quote (hd eof tail)
                                (Z.of_nat (List.length elems)) l0).
  { unfold scanString, bind. rewrite N. exact El. }
  split.
  - intros rest ->. exists l0. rewrite Run. cbn [hd tl] in *.
    rewrite scanString_loop_quote. auto.
  - intro Ht.
    assert (T : hd eof tail <> quote /\
                (hd eof tail = newline \/ hd eof tail = eof)).
    { destruct Ht as [->|(Hn & Hne)].
      - cbn [hd]. split; [unfold eof; lia | right; reflexivity].
      - rewrite Hn. split; [congruence | left; reflexivity]. }
    destruct T as (T1 & T2).
    destruct (error_returns literal_not_terminated l0) as (l' & Ee).
    exists l0, l'. split; [exact Fl|]. split; [exact Ah|].
    split; [exact Ee|].
    rewrite Run, (scanString_loop_unterminated quote _ _ _ l0 T1 T2).
    unfold bind. rewrite Ee. reflexivity.
Qed.

(** An unterminated literal: an opening quote, then
    [abc], then the end of the input. *)
Lemma scanString_counts_elements_witness :
  exists l',
    run (next ;;; scanString single_quote) "'abc" = Ok 3 l' /\
    err l' = Some (mkError (mkloc 1 3) literal_not_terminated).
Proof.
  pose (l1 := moved (new_lexer (lit "'abc")) 1).
  assert (P : 0 <= end_ l1) by (vm_compute; discriminate).
  assert (Q : 0 <= single_quote) by (vm_compute; discriminate).
  assert (E3 : Forall (element single_quote)
                      [[chr "a"]; [chr "b"]; [chr "c"]]).
  { repeat constructor; vm_compute; congruence. }
  destruct (scanString_counts_elements single_quote l1
              [[chr "a"]; [chr "b"]; [chr "c"]] [] P Q E3 eq_refl)
    as (_ & _ & H).
  destruct (H (or_introl eq_refl)) as (l0 & l' & Fr & Ah & Ee & E).
  exists l'. split; [exact E|].
  pose proof E as E'. vm_compute in E'. injection E' as <-. reflexivity.
Defined.

(** * Further properties of the engine *)

(** ** [next] and [peek] *)

(** [next] reads the input and [end] only: two lexers that differ in the
    recorded width alone take the same step. *)
Lemma next_ext l1 l2 :
  input l1 = input l2 -> tokens l1 = tokens l2 -> start l1 = start l2 ->
  end_ l1 = end_ l2 -> err l1 = err l2 -> next l1 = next l2.
Proof.
  destruct l1, l2. cbn. intros -> -> -> -> ->. reflexivity.
Qed.

(** X1: [next] returns the sentinel [eof] exactly when the input is
    exhausted, whatever bytes the input holds; it then records width 0,
    leaves [end] alone, and every later [next] does the same. *)
Theorem next_eof_iff_exhausted (l : lexer) :
  0 <= end_ l ->
  exists r l',
    next l = Ok r l' /\
    (r = eof <-> len (input l) <= end_ l) /\
    (r = eof -> l' = set_width l 0 /\ next l' = Ok eof l').
Proof.
  intro H0. unfold next at 1.
  destruct (Z.leb_spec (len (input l)) (end_ l)) as [Hle|Hlt].
  - exists eof, (set_width l 0). split; [reflexivity|].
    split; [tauto|]. intros _. split; [reflexivity|].
    unfold next. cbn [input end_ set_width].
    destruct (Z.leb_spec (len (input l)) (end_ l)); [reflexivity | lia].
  - destruct (Z.ltb_spec (end_ l) 0); [lia|].
    destruct (utf8.DecodeRuneInString (slice_from (input l) (end_ l)))
      as [r w] eqn:E.
    pose proof (DecodeRune_nonneg _ _ _ E) as R.
    exists r, (set_end (set_width l w) (end_ l + w)).
    split; [reflexivity|]. unfold eof. split; [lia|]. lia.
Qed.

Lemma next_eof_iff_exhausted_witness :
  exists l', run (next ;;; next ;;; next) "a" = Ok eof l' /\ end_ l' = 1.
Proof.
  pose (l1 := moved (new_lexer (lit "a")) 1).
  assert (P : 0 <= end_ l1) by (vm_compute; discriminate).
  destruct (next_eof_iff_exhausted l1 P) as (r & l' & N & Hr & St).
  assert (Er : r = eof) by (apply Hr; vm_compute; discriminate).
  destruct (St Er) as (El & N2). subst r.
  exists l'. unfold run, bind.
  change (next (new_lexer (lit "a"))) with (Ok (chr "a") l1).
  cbn iota beta. rewrite N, N2. split; [reflexivity|].
  rewrite El. reflexivity.
Defined.

(** One step of [next] away from the end of the input. *)
Lemma next_decodes (l : lexer) :
  0 <= end_ l -> end_ l < len (input l) ->
  exists r l',
    next l = Ok r l' /\ 0 <= r /\ ahead l = r :: ahead l' /\
    utf8.DecodeRuneInString (rest l) = (r, width l') /\
    1 <= width l' <= 4 /\ end_ l' = end_ l + width l' /\
    end_ l' <= len (input l) /\ same_frame l l'.
Proof.
  intros H0 Hlt. pose proof (next_spec l H0) as N.
  destruct (ahead l) as [|r rs] eqn:A.
  - apply runes_nil_inv in A. apply (slice_from_nil_iff _ _ H0) in A. lia.
  - destruct N as (w & W & L & R & N & A').
    exists r, (moved l w). split; [exact N|]. split; [exact R|].
    split; [rewrite A'; reflexivity|].
    pose proof (next_width l r (moved l w) H0 N) as Wd.
    split.
    { destruct (utf8.DecodeRuneInString (rest l)) as [r0 w0] eqn:E.
      unfold moved in Wd |- *.
      cbn [snd width set_end set_width] in Wd |- *. subst w0.
      assert (Ne : rest l <> []).
      { intro Hn. apply (slice_from_nil_iff _ _ H0) in Hn. lia. }
      pose proof (runes_cons (rest l) r0 w Ne E) as Rc.
      fold (ahead l) in Rc. rewrite A in Rc. congruence. }
    unfold moved. cbn [width end_ set_end set_width].
    repeat split; lia.
Qed.

(** X2: on an input that is not exhausted [next] consumes exactly one
    decoded character: it returns the first rune ahead, which is never
    negative, records its width, between 1 and 4 bytes, moves [end] by
    that width and never past the end of the input, and touches nothing
    else; a [backup] right after it puts [end] back where it was. *)
Theorem next_consumes_one_rune (l : lexer) :
  0 <= end_ l -> end_ l < len (input l) ->
  exists r l',
    next l = Ok r l' /\ 0 <= r /\ ahead l = r :: ahead l' /\
    utf8.DecodeRuneInString (rest l) = (r, width l') /\
    1 <= width l' <= 4 /\ end_ l' = end_ l + width l' /\
    end_ l' <= len (input l) /\ same_frame l l' /\
    backup l' = Ok tt (backed l') /\ end_ (backed l') = end_ l /\
    ahead (backed l') = ahead l.
Proof.
  intros H0 Hlt.
  destruct (next_decodes l H0 Hlt) as (r & l' & N & R & A & D & W & E & L & Fr).
  exists r, l'. split; [exact N|]. split; [exact R|]. split; [exact A|].
  split; [exact D|]. split; [exact W|]. split; [exact E|].
  split; [exact L|]. split; [exact Fr|]. split; [reflexivity|].
  assert (B : end_ (backed l') = end_ l)
    by (unfold backed; cbn [end_ set_end]; lia).
  split; [exact B|]. apply ahead_ext; [|exact B].
  cbn [input backed set_end]. apply Fr.
Qed.

Lemma next_consumes_one_rune_witness :
  exists l',
    next (new_lexer e_acute_newline_b) = Ok 233 l' /\
    width l' = 2 /\ end_ l' = 2.
Proof.
  assert (P : 0 <= end_ (new_lexer e_acute_newline_b)) by (cbn; lia).
  assert (Q : end_ (new_lexer e_acute_newline_b) <
              len (input (new_lexer e_acute_newline_b)))
    by (vm_compute; reflexivity).
  destruct (next_consumes_one_rune _ P Q)
    as (r & l' & N & _ & _ & D & _ & E & _).
  assert (X : r = 233 /\ width l' = 2).
  { vm_compute in D. injection D as D1 D2.
    split; [symmetry; exact D1 | symmetry; exact D2]. }
  destruct X as (-> & Wd). exists l'. split; [exact N|].
  split; [exact Wd|]. rewrite E, Wd. reflexivity.
Defined.

(** X3: [peek] is a lookahead: it returns the rune [next] would return
    and leaves [end] and what is ahead as they were; a [next] after a
    [peek] is the [next] that would have been made without it, and a
    second [peek] changes nothing. *)
Theorem peek_is_lookahead (l : lexer) :
  0 <= end_ l ->
  exists r l',
    peek l = Ok r l' /\ r = hd eof (ahead l) /\
    end_ l' = end_ l /\ ahead l' = ahead l /\ same_frame l l' /\
    (peek ;;; next) l = next l /\
    (peek ;;; peek) l = peek l.
Proof.
  intro H0. destruct (next_hd_tl l H0) as (l1 & N & A1 & F1 & E1).
  assert (Bk : end_ (backed l1) = end_ l).
  { pose proof (next_spec l H0) as S. destruct (ahead l).
    - rewrite S in N. injection N as <-.
      unfold backed. cbn [end_ width set_end set_width]. lia.
    - destruct S as (w & _ & _ & _ & S & _). rewrite S in N.
      injection N as <-.
      unfold backed, moved. cbn [end_ width set_end set_width]. lia. }
  assert (Fb : same_frame l (backed l1))
    by (apply same_frame_set_end; exact F1).
  assert (Pk : peek l = Ok (hd eof (ahead l)) (backed l1))
    by (unfold peek, bind; rewrite N; reflexivity).
  assert (Nx : next (backed l1) = next l).
  { destruct Fb as (I & T & S & E). apply next_ext; assumption. }
  exists (hd eof (ahead l)), (backed l1).
  split; [exact Pk|]. split; [reflexivity|]. split; [exact Bk|].
  split; [apply ahead_ext; [apply Fb | exact Bk]|].
  split; [exact Fb|]. split.
  - unfold bind at 1. rewrite Pk. exact Nx.
  - unfold bind at 1. rewrite Pk. unfold peek, bind. rewrite Nx, N.
    reflexivity.
Qed.

Lemma peek_is_lookahead_witness :
  run (peek ;;; next) "ab" = run next "ab".
Proof.
  destruct (peek_is_lookahead (new_lexer (lit "ab")) ltac:(cbn; lia))
    as (r & l' & _ & _ & _ & _ & _ & PN & _).
  exact PN.
Defined.

(** ** [loc] on ASCII input and out of range *)

Lemma DecodeRune_ascii b t :
  byteval b < utf8.RuneSelf ->
  utf8.DecodeRuneInString (b :: t) = (byteval b, 1).
Proof.
  unfold utf8.RuneSelf. intro H. unfold utf8.DecodeRuneInString, utf8.first.
  destruct (Z.ltb_spec (byteval b) 128); [reflexivity | lia].
Qed.

Lemma runes_ascii s : ascii_only s -> runes s = map byteval s.
Proof.
  induction 1 as [|b t Hb _ IH]; [reflexivity|].
  rewrite (runes_cons (b :: t) (byteval b) 1 ltac:(discriminate)
                      (DecodeRune_ascii b t Hb)).
  cbn [map]. f_equal. exact IH.
Qed.

Lemma ascii_only_firstn n s : ascii_only s -> ascii_only (firstn n s).
Proof.
  unfold ascii_only. intro H. rewrite <- (firstn_skipn n s) in H.
  apply Forall_app in H. apply H.
Qed.

(** X5: on an input of ASCII bytes [loc] is right about byte offsets: the
    location it returns for an offset is the one obtained by scanning the
    bytes before that offset. *)
Theorem loc_agrees_on_ascii (l : lexer) (pos : Z) :
  ascii_only (input l) -> 0 <= pos ->
  loc l pos = location_of_offset (input l) pos /\
  loc l pos =
  fold_left advance (map byteval (firstn (Z.to_nat pos) (input l))) (mkloc 1 0).
Proof.
  intros Ha Hp. unfold location_of_offset.
  rewrite (loc_fold l pos Hp), (runes_ascii _ Ha), firstn_map.
  rewrite (runes_ascii _ (ascii_only_firstn _ _ Ha)). split; reflexivity.
Qed.

Lemma loc_agrees_on_ascii_witness :
  loc (new_lexer a_newline_b) 2 = location_of_offset a_newline_b 2.
Proof.
  assert (A : ascii_only (input (new_lexer a_newline_b))).
  { repeat constructor. }
  apply (loc_agrees_on_ascii (new_lexer a_newline_b) 2 A). lia.
Defined.

Lemma fold_advance_bounds rs :
  forall p,
    Line p <= Line (fold_left advance rs p) /\
    (0 <= Column p -> 0 <= Column (fold_left advance rs p)).
Proof.
  induction rs as [|ch rs IH] using rev_ind; intro p.
  - cbn. split; [lia | auto].
  - rewrite fold_advance_snoc, advance_Line, advance_Column.
    destruct (IH p) as (L & C). destruct (ch =? newline); split; lia.
Qed.

(** X6: an offset that no character index reaches, a negative one or one
    at or beyond the number of characters, makes [loc] scan the whole
    input and return the location of its end; so the token [emitEOF]
    emits when [start] is 0 and the error [error] records when [end] is
    0, both located from offset -1, are placed at the end of the input,
    which for the empty input is line 1, column 0. *)
Theorem loc_out_of_range (l : lexer) (pos : Z) :
  pos < 0 \/ Z.of_nat (List.length (runes (input l))) <= pos ->
  loc l pos = fold_left advance (runes (input l)) (mkloc 1 0) /\
  (input l = [] -> loc l pos = mkloc 1 0).
Proof.
  intro H.
  assert (E : loc l pos = fold_left advance (runes (input l)) (mkloc 1 0)).
  { destruct H as [Hn|Hb].
    - unfold loc. apply loc_loop_all. lia.
    - rewrite loc_fold by lia. rewrite firstn_all2 by lia. reflexivity. }
  split; [exact E|]. intro Hi. rewrite E, Hi. reflexivity.
Qed.

Lemma loc_out_of_range_witness :
  loc (new_lexer (lit "ab")) (-1) = mkloc 1 2 /\
  loc (new_lexer (lit "ab")) 7 = mkloc 1 2.
Proof.
  assert (N : -1 < 0) by lia.
  assert (B : Z.of_nat (List.length (runes (input (new_lexer (lit "ab"))))) <= 7)
    by (vm_compute; discriminate).
  split.
  - rewrite (proj1 (loc_out_of_range (new_lexer (lit "ab")) (-1) (or_introl N))).
    reflexivity.
  - rewrite (proj1 (loc_out_of_range (new_lexer (lit "ab")) 7 (or_intror B))).
    reflexivity.
Defined.

(** Whatever the offset, [loc] folds [advance] over a prefix of the
    characters of the input. *)
Lemma loc_prefix l pos :
  exists k, loc l pos = fold_left advance (firstn k (runes (input l))) (mkloc 1 0).
Proof.
  destruct (Z.lt_ge_cases pos 0) as [Hn|Hp].
  - exists (List.length (runes (input l))). rewrite firstn_all.
    unfold loc. apply loc_loop_all. lia.
  - exists (Z.to_nat pos). apply loc_fold. exact Hp.
Qed.

(** X7: every location [loc] returns has a line of at least 1 and a
    column of at least 0, for any offset at all, and the line never goes
    down when the offset goes up from 0. *)
Theorem loc_shape (l : lexer) (pos pos' : Z) :
  1 <= Line (loc l pos) /\ 0 <= Column (loc l pos) /\
  (0 <= pos <= pos' -> Line (loc l pos) <= Line (loc l pos')).
Proof.
  destruct (loc_prefix l pos) as (k & E). rewrite E.
  destruct (fold_advance_bounds (firstn k (runes (input l))) (mkloc 1 0))
    as (L & C). cbn [Line Column mkloc] in L, C.
  split; [exact L|]. split; [apply C; lia|]. intros (H0 & Hle).
  rewrite <- E. rewrite (loc_fold l pos H0), (loc_fold l pos') by lia.
  replace (Z.to_nat pos') with (Z.to_nat pos + (Z.to_nat pos' - Z.to_nat pos))%nat
    by lia.
  set (d := (Z.to_nat pos' - Z.to_nat pos)%nat).
  assert (F : forall n m (xs : list Z),
             firstn (n + m) xs = firstn n xs ++ firstn m (skipn n xs)).
  { induction n as [|n IHn]; intros m xs; [reflexivity|].
    destruct xs as [|x xs]; [rewrite !firstn_nil; reflexivity|].
    cbn [Nat.add firstn skipn app]. f_equal. apply IHn. }
  rewrite F, fold_left_app. apply fold_advance_bounds.
Qed.

Lemma loc_shape_witness :
  Line (loc (new_lexer a_newline_b) 0) <= Line (loc (new_lexer a_newline_b) 2).
Proof.
  apply (loc_shape (new_lexer a_newline_b) 0 2). lia.
Defined.

(** ** [digitVal] and [lower] *)

Lemma digit_value_cases ch :
  (48 <= ch <= 57 /\ digit_value ch = Some (ch - 48)) \/
  (97 <= ch <= 102 /\ digit_value ch = Some (ch - 87)) \/
  (65 <= ch <= 70 /\ digit_value ch = Some (ch - 55)) \/
  (~ 48 <= ch <= 57 /\ ~ 97 <= ch <= 102 /\ ~ 65 <= ch <= 70 /\
   digit_value ch = None).
Proof.
  unfold digit_value.
  change (chr "0") with 48. change (chr "9") with 57.
  change (chr "a") with 97. change (chr "f") with 102.
  change (chr "A") with 65. change (chr "F") with 70.
  destruct (Z.leb_spec 48 ch), (Z.leb_spec ch 57); cbn [andb];
    try (left; split; [lia | reflexivity]);
    (destruct (Z.leb_spec 97 ch), (Z.leb_spec ch 102); cbn [andb];
     try (right; left; split; [lia | f_equal; lia]));
    (destruct (Z.leb_spec 65 ch), (Z.leb_spec ch 70); cbn [andb];
     try (right; right; left; split; [lia | f_equal; lia]));
    right; right; right; repeat split; try lia.
Qed.

(** X8: [digitVal] is the value of a digit: 0 to 9 for [0-9], 10 to 15 for
    [a-f] and, with the same values, for [A-F]; for any other rune, the
    sentinel [eof] included, it is 16, so a rune passes the test
    [digitVal(ch) < 16] exactly when it is a hexadecimal digit. *)
Theorem digitVal_table (ch : rune) :
  digitVal ch = match digit_value ch with Some v => v | None => 16 end /\
  0 <= digitVal ch <= 16 /\
  (digitVal ch < 16 <->
   chr "0" <= ch <= chr "9" \/ chr "a" <= ch <= chr "f" \/
   chr "A" <= ch <= chr "F") /\
  (chr "A" <= ch <= chr "F" -> digitVal ch = digitVal (ch + 32)) /\
  digitVal eof = 16.
Proof.
  change (chr "0") with 48. change (chr "9") with 57.
  change (chr "a") with 97. change (chr "f") with 102.
  change (chr "A") with 65. change (chr "F") with 70.
  split; [apply digitVal_digit_value|].
  rewrite (digitVal_digit_value ch), (digitVal_digit_value (ch + 32)).
  destruct (digit_value_cases ch) as [(R & E)|[(R & E)|[(R & E)|(R1 & R2 & R3 & E)]]];
    rewrite E; (split; [lia|]); (split; [split; intros; lia|]);
    (split; [|reflexivity]); intro U; try lia.
  destruct (digit_value_cases (ch + 32))
    as [(R' & E')|[(R' & E')|[(R' & E')|(R1 & R2 & R3 & E')]]];
    rewrite E'; lia.
Qed.

Lemma digitVal_table_witness :
  digitVal (chr "C") = 12 /\ digitVal (chr "c") = 12.
Proof.
  destruct (digitVal_table (chr "C")) as (_ & _ & _ & U & _).
  assert (R : chr "A" <= chr "C" <= chr "F") by (vm_compute; split; discriminate).
  split; [reflexivity|].
  change (chr "c") with (chr "C" + 32). rewrite <- (U R). reflexivity.
Defined.

Lemma testbit5_div ch : Z.testbit ch 5 = Z.odd (ch / 32).
Proof.
  rewrite Z.testbit_odd, Z.shiftr_div_pow2 by lia. reflexivity.
Qed.

(** X9: [lower] turns an upper-case ASCII letter into the lower-case one,
    leaves a lower-case letter as it is, and applying it twice is
    applying it once. *)
Theorem lower_letters (ch : rune) :
  (chr "A" <= ch <= chr "Z" -> lower ch = ch + (chr "a" - chr "A")) /\
  (chr "a" <= ch <= chr "z" -> lower ch = ch) /\
  lower (lower ch) = lower ch.
Proof.
  change (chr "A") with 65. change (chr "Z") with 90.
  change (chr "a") with 97. change (chr "z") with 122.
  change (97 - 65) with 32.
  split; [|split].
  - intro R. rewrite lower_spec, testbit5_div.
    assert (D : ch / 32 = 2) by (Z.to_euclidean_division_equations; lia).
    rewrite D. reflexivity.
  - intro R. rewrite lower_spec, testbit5_div.
    assert (D : ch / 32 = 3) by (Z.to_euclidean_division_equations; lia).
    rewrite D. reflexivity.
  - unfold lower. rewrite Z.lor_assoc, Z.lor_diag. reflexivity.
Qed.

Lemma lower_letters_witness : lower (chr "Q") = chr "q".
Proof.
  destruct (lower_letters (chr "Q")) as (U & _).
  rewrite U by (vm_compute; split; discriminate). reflexivity.
Defined.

(** ** Emitting *)

Lemma firstn_plus {A} n :
  forall m (xs : list A),
    firstn (n + m) xs = firstn n xs ++ firstn m (skipn n xs).
Proof.
  induction n as [|n IH]; intros m xs; [reflexivity|].
  destruct xs as [|x xs]; [rewrite !firstn_nil; reflexivity|].
  cbn [Nat.add firstn skipn app]. f_equal. apply IH.
Qed.

(** X10: [emit] appends one token whose value is the pending span
    [input[start:end]] and closes the span; if the values of the tokens
    emitted before it made up the input up to [start], those emitted
    after it make up the input up to [end], and the whole input once
    [end] has reached its length. *)
Theorem emit_covers_input (l : lexer) (t : Kind) :
  Inv l -> covered l ->
  exists l',
    emit t l = Ok tt l' /\
    tokens l' =
    tokens l ++
    [mkToken (loc l (start l)) t
             (firstn (Z.to_nat (end_ l - start l))
                     (slice_from (input l) (start l)))] /\
    start l' = end_ l /\ end_ l' = end_ l /\ input l' = input l /\
    err l' = err l /\ Inv l' /\ covered l' /\
    (end_ l = len (input l) ->
     List.concat (map Value (tokens l')) = input l).
Proof.
  intros HI Hc. pose proof HI as (A & B & C).
  assert (W : word l =
              Ok (firstn (Z.to_nat (end_ l - start l))
                         (slice_from (input l) (start l))) l).
  { unfold word.
    destruct (Z.leb_spec 0 (start l)); [|lia].
    destruct (Z.leb_spec (start l) (end_ l)); [|lia].
    destruct (Z.leb_spec (end_ l) (len (input l))); [|lia]. reflexivity. }
  eexists. unfold emit, bind. rewrite W. split; [reflexivity|].
  cbn [tokens start end_ input err set_start set_tokens].
  assert (Cv : List.concat
                 (map Value
                      (tokens l ++
                       [mkToken (loc l (start l)) t
                                (firstn (Z.to_nat (end_ l - start l))
                                        (slice_from (input l) (start l)))])) =
               firstn (Z.to_nat (end_ l)) (input l)).
  { rewrite map_app, concat_app. cbn [map List.concat Value mkToken].
    rewrite app_nil_r. unfold covered in Hc. rewrite Hc. unfold slice_from.
    rewrite <- firstn_plus. f_equal. lia. }
  split; [reflexivity|]. split; [reflexivity|]. split; [reflexivity|].
  split; [reflexivity|]. split; [reflexivity|].
  split; [unfold Inv; cbn; lia|].
  split; [exact Cv|].
  intro He. unfold mkToken in Cv. rewrite Cv. apply firstn_all2.
  unfold len in He. lia.
Qed.

Lemma emit_covers_input_witness :
  exists l',
    run (next ;;; emit (OtherKind "a")) "a" = Ok tt l' /\
    List.concat (map Value (tokens l')) = lit "a".
Proof.
  pose (l1 := moved (new_lexer (lit "a")) 1).
  assert (I1 : Inv l1) by (unfold Inv; vm_compute; intuition discriminate).
  assert (C1 : covered l1) by reflexivity.
  destruct (emit_covers_input l1 (OtherKind "a") I1 C1)
    as (l' & E & _ & _ & _ & _ & _ & _ & _ & Full).
  exists l'. split; [exact E|]. apply Full. reflexivity.
Defined.

(** ** [acceptRun] twice *)

Lemma drop_while_head {A} (f : A -> bool) xs r rs :
  drop_while f xs = r :: rs -> f r = false.
Proof.
  induction xs as [|x xs IH]; cbn [drop_while]; [discriminate|].
  destruct (f x) eqn:F; [exact IH|]. intros [= <- _]. exact F.
Qed.

(** X11: right after [acceptRun] the cursor stands in front of a
    character outside the set, or at the end of the input: an [accept]
    with the same set returns [false] and a second [acceptRun] consumes
    nothing, both leaving [end] where the first run left it. *)
Theorem acceptRun_then_rejects (valid : gostring) (l : lexer) :
  0 <= end_ l ->
  exists l1,
    acceptRun valid l = Ok tt l1 /\
    (exists l2, accept valid l1 = Ok false l2 /\ end_ l2 = end_ l1 /\
                ahead l2 = ahead l1) /\
    (exists l3, acceptRun valid l1 = Ok tt l3 /\ end_ l3 = end_ l1 /\
                ahead l3 = ahead l1).
Proof.
  intro H0.
  destruct (acceptRun_spec valid l H0) as (l1 & E & Fr & D & Lo & _).
  assert (H1 : 0 <= end_ l1) by lia.
  exists l1. split; [exact E|].
  pose proof (accept_spec valid l1 H1) as Ac.
  pose proof (next_spec l1 H1) as N.
  destruct (ahead l1) as [|r rs] eqn:A1.
  - split.
    + exists (backed (set_width l1 0)). split; [exact Ac|].
      rewrite backed_eof. split; [|exact A1].
      unfold backed. cbn [end_ width set_end set_width]. lia.
    + exists (backed (set_width l1 0)).
      unfold acceptRun, bind. cbn [acceptRun_loop]. unfold bind.
      rewrite N, ContainsRune_eof. split; [reflexivity|].
      rewrite backed_eof. split; [|exact A1].
      unfold backed. cbn [end_ width set_end set_width]. lia.
  - symmetry in D. apply drop_while_head in D.
    destruct Ac as (w & W & L & A' & Ac). rewrite D in Ac.
    destruct N as (w' & _ & _ & _ & N & _).
    split.
    + exists (backed (moved l1 w)). split; [exact Ac|].
      rewrite backed_moved. split; [|exact A1].
      unfold backed, moved. cbn [end_ width set_end set_width]. lia.
    + exists (backed (moved l1 w')).
      unfold acceptRun, bind. cbn [acceptRun_loop]. unfold bind.
      rewrite N, D. split; [reflexivity|].
      rewrite backed_moved. split; [|exact A1].
      unfold backed, moved. cbn [end_ width set_end set_width]. lia.
Qed.

Lemma acceptRun_then_rejects_witness :
  exists l1 l3,
    run (acceptRun (lit "ab")) "abbac" = Ok tt l1 /\ end_ l1 = 4 /\
    acceptRun (lit "ab") l1 = Ok tt l3 /\ end_ l3 = 4.
Proof.
  destruct (acceptRun_then_rejects (lit "ab") (new_lexer (lit "abbac"))
              ltac:(cbn; lia)) as (l1 & E & _ & l3 & E3 & En & _).
  assert (E4 : end_ l1 = 4).
  { pose proof E as E'. vm_compute in E'. injection E' as <-. reflexivity. }
  exists l1, l3. split; [exact E|]. split; [exact E4|].
  split; [exact E3|]. rewrite En. exact E4.
Defined.

(** ** The scanners as a whole *)

Lemma scans_refl l : scans l l.
Proof. unfold scans. repeat split; auto; lia. Qed.

Lemma scans_trans l1 l2 l3 : scans l1 l2 -> scans l2 l3 -> scans l1 l3.
Proof.
  intros (I1 & T1 & S1 & L1 & H1 & E1) (I2 & T2 & S2 & L2 & H2 & E2).
  rewrite I1 in H2. unfold scans.
  repeat split; try congruence; try lia. auto.
Qed.

Lemma safe_ret {A} (a : A) : safe (ret a).
Proof. intros l _. exists a, l. split; [reflexivity | apply scans_refl]. Qed.

Lemma safe_bind {A B} (m : M A) (k : A -> M B) :
  safe m -> (forall a, safe (k a)) -> safe (bind m k).
Proof.
  intros Hm Hk l H0. destruct (Hm l H0) as (a & l1 & E1 & S1).
  assert (H1 : 0 <= end_ l1) by (destruct S1 as (_ & _ & _ & L & _); lia).
  destruct (Hk a l1 H1) as (b & l2 & E2 & S2).
  exists b, l2. unfold bind. rewrite E1.
  split; [exact E2 | eapply scans_trans; eassumption].
Qed.

Lemma safe_next : safe next.
Proof.
  intros l H0. pose proof (next_spec l H0) as N.
  destruct (ahead l) as [|r rs].
  - exists eof, (set_width l 0). split; [exact N|].
    unfold scans. cbn. repeat split; auto; lia.
  - destruct N as (w & W & L & _ & N & _). exists r, (moved l w).
    split; [exact N|]. unfold scans, moved. cbn. repeat split; auto; lia.
Qed.

Lemma safe_error message : safe (error message).
Proof.
  intros l H0. unfold error. destruct (err l) as [e|] eqn:E.
  - exists None, l. split; [reflexivity | apply scans_refl].
  - eexists. eexists. split; [reflexivity|].
    unfold scans. cbn. rewrite E. repeat split; auto; try lia. discriminate.
Qed.

Lemma safe_scanDigits_loop base :
  forall fuel ch n,
    (Z.to_nat n <= fuel)%nat -> safe (scanDigits_loop fuel ch base n).
Proof.
  induction fuel as [|fuel IH]; intros ch n F; cbn [scanDigits_loop].
  - destruct (Z.ltb_spec 0 n); [lia|]. cbn [andb]. apply safe_ret.
  - destruct ((0 <? n) && (digitVal ch <? base)) eqn:C; [|apply safe_ret].
    apply safe_bind; [apply safe_next|]. intro ch'. apply IH. lia.
Qed.

Lemma safe_scanDigits ch base n : safe (scanDigits ch base n).
Proof.
  unfold scanDigits. apply safe_bind.
  - apply safe_scanDigits_loop. lia.
  - intro r. destruct (0 <? snd r); [|apply safe_ret].
    apply safe_bind; [apply safe_error | intro; apply safe_ret].
Qed.

Lemma safe_scanEscape quote : safe (scanEscape quote).
Proof.
  unfold scanEscape. apply safe_bind; [apply safe_next|]. intro ch.
  destruct (existsb _ _); [apply safe_next|].
  destruct (is_octal ch); [apply safe_scanDigits|].
  destruct (ch =? chr "x");
    [apply safe_bind; [apply safe_next | intro; apply safe_scanDigits]|].
  destruct (ch =? chr "u");
    [apply safe_bind; [apply safe_next | intro; apply safe_scanDigits]|].
  destruct (ch =? chr "U");
    [apply safe_bind; [apply safe_next | intro; apply safe_scanDigits]|].
  apply safe_bind; [apply safe_error | intro; apply safe_ret].
Qed.

Lemma safe_scan_step quote ch : safe (scan_step quote ch).
Proof.
  unfold scan_step. destruct (ch =? backslash);
    [apply safe_scanEscape | apply safe_next].
Qed.

(** The loop of [scanString] on any input: it returns, it is a scanner,
    and it makes at most one round per character ahead, plus one for the
    character in hand. *)
Lemma scanString_loop_scans quote :
  forall fuel ch n l,
    0 <= end_ l -> (ch <> eof -> (List.length (ahead l) < fuel)%nat) ->
    exists n' l',
      scanString_loop fuel quote ch n l = Ok n' l' /\ scans l l' /\
      n <= n' <=
      n + Z.of_nat (List.length (ahead l)) + (if ch =? eof then 0 else 1).
Proof.
  assert (Stop : forall fuel ch n l,
             ch <> quote -> ch = newline \/ ch = eof -> 0 <= end_ l ->
             exists n' l',
               scanString_loop fuel quote ch n l = Ok n' l' /\ scans l l' /\
               n' = n).
  { intros fuel ch n l Hq Ht H0.
    rewrite (scanString_loop_unterminated quote fuel ch n l Hq Ht).
    destruct (safe_error literal_not_terminated l H0) as (o & l' & Ee & Se).
    exists n, l'. unfold bind. rewrite Ee. auto. }
  assert (Pos : forall ch : Z, 0 <= (if ch =? eof then 0 else 1))
    by (intro ch; destruct (ch =? eof); lia).
  induction fuel as [|fuel IH]; intros ch n l H0 F.
  - destruct (Z.eq_dec ch quote) as [->|Hq].
    { rewrite scanString_loop_quote. exists n, l.
      split; [reflexivity|]. split; [apply scans_refl|].
      specialize (Pos quote). lia. }
    destruct (Z.eq_dec ch eof) as [He|He]; [|specialize (F He); lia].
    destruct (Stop 0%nat ch n l Hq (or_intror He) H0) as (n' & l' & E & S & ->).
    exists n, l'. specialize (Pos ch).
      split; [exact E|]. split; [exact S|]. lia.
  - destruct (Z.eq_dec ch quote) as [->|Hq].
    { rewrite scanString_loop_quote. exists n, l.
      split; [reflexivity|]. split; [apply scans_refl|].
      specialize (Pos quote). lia. }
    destruct (Z.eq_dec ch newline) as [Hn|Hn];
      [|destruct (Z.eq_dec ch eof) as [He|He]].
    + destruct (Stop (S fuel) ch n l Hq (or_introl Hn) H0)
        as (n' & l' & E & S & ->).
      exists n, l'. specialize (Pos ch).
      split; [exact E|]. split; [exact S|]. lia.
    + destruct (Stop (S fuel) ch n l Hq (or_intror He) H0)
        as (n' & l' & E & S & ->).
      exists n, l'. specialize (Pos ch).
      split; [exact E|]. split; [exact S|]. lia.
    + rewrite (scanString_loop_step quote fuel ch n l Hq Hn He).
      destruct (scan_step_progress quote ch l H0)
        as (ch' & l1 & E & E1 & _ & Z' & L).
      destruct (safe_scan_step quote ch l H0) as (a & l1' & E' & S1).
      rewrite E in E'. injection E' as <- <-.
      unfold bind. rewrite E.
      assert (F1 : ch' <> eof -> (List.length (ahead l1) < fuel)%nat).
      { intro Hne. specialize (F He). destruct (ahead l) as [|r rs].
        - exfalso. apply Hne. apply Z'. reflexivity.
        - cbn [tl List.length] in *. lia. }
      destruct (IH ch' (n + 1) l1 E1 F1) as (n' & l' & El & Sl & B).
      exists n', l'. split; [exact El|].
      split; [eapply scans_trans; eassumption|].
      destruct (Z.eqb_spec ch eof); [contradiction|].
      destruct (Z.eqb_spec ch' eof) as [Hc|Hc].
      * rewrite length_tl in L. lia.
      * destruct (ahead l) as [|r rs].
        -- exfalso. apply Hc. apply Z'. reflexivity.
        -- cbn [tl List.length] in *. lia.
Qed.

Lemma scans_Inv l l' : Inv l -> scans l l' -> Inv l'.
Proof.
  intros (A & B & C) (I & _ & S & L & H & _). unfold Inv.
  rewrite I, S. lia.
Qed.

Lemma safe_scanString quote : safe (scanString quote).
Proof.
  intros l H0. destruct (safe_next l H0) as (ch & l1 & N & S1).
  assert (H1 : 0 <= end_ l1) by (destruct S1 as (_ & _ & _ & L & _); lia).
  destruct (scanString_loop_scans quote (S (List.length (input l))) ch 0 l1 H1)
    as (n & l' & E & S2 & _).
  { intros _. pose proof (ahead_length l1) as L.
    destruct S1 as (I & _). rewrite I in L. lia. }
  exists n, l'. unfold scanString, bind. rewrite N.
  split; [exact E | eapply scans_trans; eassumption].
Qed.

(** X12: from a lexer that satisfies the invariant, [scanDigits],
    [scanEscape] and [scanString] return on every input, keep the
    invariant, leave the input, the tokens and [start] alone, never move
    [end] backwards, and keep an error that is already on record. *)
Theorem scanners_keep_frame (quote ch base n : Z) (l : lexer) :
  Inv l ->
  (exists r l', scanDigits ch base n l = Ok r l' /\ scans l l' /\ Inv l') /\
  (exists r l', scanEscape quote l = Ok r l' /\ scans l l' /\ Inv l') /\
  (exists k l', scanString quote l = Ok k l' /\ scans l l' /\ Inv l').
Proof.
  intro HI. assert (H0 : 0 <= end_ l) by (destruct HI; lia).
  split; [|split].
  - destruct (safe_scanDigits ch base n l H0) as (r & l' & E & S).
    exists r, l'. eauto using scans_Inv.
  - destruct (safe_scanEscape quote l H0) as (r & l' & E & S).
    exists r, l'. eauto using scans_Inv.
  - destruct (safe_scanString quote l H0) as (r & l' & E & S).
    exists r, l'. eauto using scans_Inv.
Qed.

Lemma scanners_keep_frame_witness :
  exists k l',
    run (next ;;; scanString single_quote) bad_escape_unterminated = Ok k l' /\
    Inv l' /\ start l' = 0.
Proof.
  pose (l1 := moved (new_lexer (lit bad_escape_unterminated)) 1).
  assert (I1 : Inv l1) by (unfold Inv; vm_compute; intuition discriminate).
  destruct (scanners_keep_frame single_quote 0 0 0 l1 I1)
    as (_ & _ & k & l' & E & S & I').
  exists k, l'. split; [exact E|]. split; [exact I'|].
  destruct S as (_ & _ & St & _). rewrite St. reflexivity.
Defined.

(** X13: the count [scanString] returns is never negative and never more
    than the number of characters that were ahead of the cursor. *)
Theorem scanString_count_bounds (quote : rune) (l : lexer) :
  0 <= end_ l ->
  exists n l',
    scanString quote l = Ok n l' /\
    0 <= n <= Z.of_nat (List.length (ahead l)).
Proof.
  intro H0. destruct (next_hd_tl l H0) as (l1 & N & A1 & F1 & E1).
  destruct (scanString_loop_scans quote (S (List.length (input l)))
                                  (hd eof (ahead l)) 0 l1 E1)
    as (n & l' & E & _ & B).
  { intros _. pose proof (ahead_length l1) as L.
    destruct F1 as (I & _). rewrite I in L. lia. }
  exists n, l'. unfold scanString, bind. rewrite N. split; [exact E|].
  rewrite A1 in B. destruct (ahead l) as [|r rs] eqn:A.
  - cbn [hd tl List.length] in B. rewrite Z.eqb_refl in B. cbn. lia.
  - cbn [hd tl List.length] in *. destruct (r =? eof); lia.
Qed.

Lemma scanString_count_bounds_witness :
  exists n l',
    run (scanString single_quote) "ab'c" = Ok n l' /\ 0 <= n <= 4.
Proof.
  destruct (scanString_count_bounds single_quote (new_lexer (lit "ab'c"))
              ltac:(cbn; lia)) as (n & l' & E & B).
  exists n, l'. split; [exact E | exact B].
Defined.

(** ** No literal without its closing quote *)










(** ** [acceptWord] on ASCII words *)

(** A byte is a value between 0 and 255. *)
Lemma byteval_range b : 0 <= byteval b < 256.
Proof.
  unfold byteval. pose proof (Byte.to_N_bounded b). lia.
Qed.

(** A bitwise or is at least each of its non-negative operands. *)
Lemma lor_ge_l a b : 0 <= b -> a <= Z.lor a b.
Proof.
  intro Hb. pose proof (Z.sub_lor_l_same_l b a) as H.
  assert (0 <= Z.land b (Z.lnot a)) by (apply Z.land_nonneg; left; exact Hb).
  lia.
Qed.

Lemma lor_ge_r a b : 0 <= a -> b <= Z.lor a b.
Proof. intro Ha. rewrite Z.lor_comm. apply lor_ge_l. exact Ha. Qed.

(** Decide the tests of a conditional that hold no variable. *)
Ltac eval_closed_if :=
  match goal with
  | |- context [if ?c then _ else _] =>
    let v := eval vm_compute in c in
    match v with
    | true => change c with true
    | false => change c with false
    end; cbv iota
  end.

(** The classes of leading bytes of the table [first]. *)
Lemma first_cases s0 :
  0 <= s0 < 256 ->
  (s0 < 128 /\ utf8.first s0 = 0xF0) \/
  utf8.first s0 = 0xF1 \/
  (194 <= s0 < 224 /\ utf8.first s0 = 0x02) \/
  (s0 = 224 /\ utf8.first s0 = 0x13) \/
  (225 <= s0 < 240 /\ utf8.first s0 = 0x03) \/
  (s0 = 237 /\ utf8.first s0 = 0x23) \/
  (s0 = 240 /\ utf8.first s0 = 0x34) \/
  (241 <= s0 < 244 /\ utf8.first s0 = 0x04) \/
  (s0 = 244 /\ utf8.first s0 = 0x44).
Proof.
  intro H. unfold utf8.first, utf8.as_, utf8.xx.
  repeat match goal with
         | |- context [?a <? ?b] => destruct (Z.ltb_spec a b)
         | |- context [?a =? ?b] => destruct (Z.eqb_spec a b)
         end; try tauto; try lia;
    intuition lia.
Qed.

Ltac split_open :=
  repeat first
         [ eval_closed_if
         | match goal with
           | |- context [if ?c then _ else _] => destruct c eqn:?
           | |- context [match ?t with [] => _ | _ :: _ => _ end] => destruct t
           end ].

Lemma outside_false lo hi b : utf8.outside lo hi b = false -> lo <= b <= hi.
Proof.
  unfold utf8.outside. intro H. apply orb_false_iff in H. destruct H as [A B].
  apply Z.ltb_ge in A, B. lia.
Qed.

Lemma shifted_mask a m k :
  0 <= m -> 0 <= k ->
  Z.shiftl (Z.land a (Z.ones m)) k = (a mod 2 ^ m) * 2 ^ k.
Proof.
  intros Hm Hk. rewrite Z.shiftl_mul_pow2, Z.land_ones by lia. reflexivity.
Qed.

Lemma lor2_ge a b : 0 <= a -> 0 <= b -> a <= Z.lor a b.
Proof. intros. apply lor_ge_l. assumption. Qed.

Lemma lor3_ge a b c :
  0 <= a -> 0 <= b -> 0 <= c ->
  a <= Z.lor (Z.lor a b) c /\ b <= Z.lor (Z.lor a b) c.
Proof.
  intros Ha Hb Hc.
  pose proof (lor_ge_l a b Hb). pose proof (lor_ge_r a b Ha).
  pose proof (lor_ge_l (Z.lor a b) c Hc). lia.
Qed.

Lemma lor4_ge a b c d :
  0 <= a -> 0 <= b -> 0 <= c -> 0 <= d ->
  a <= Z.lor (Z.lor (Z.lor a b) c) d /\ b <= Z.lor (Z.lor (Z.lor a b) c) d.
Proof.
  intros Ha Hb Hc Hd.
  destruct (lor3_ge a b c Ha Hb Hc).
  pose proof (lor_ge_l (Z.lor (Z.lor a b) c) d Hd). lia.
Qed.

Lemma shifted_nonneg a m k : 0 <= a -> 0 <= Z.shiftl (Z.land a m) k.
Proof.
  intro H. apply Z.shiftl_nonneg. apply Z.land_nonneg. left. exact H.
Qed.

Lemma masked_nonneg a m : 0 <= a -> 0 <= Z.land a m.
Proof. intro H. apply Z.land_nonneg. left. exact H. Qed.

(** A rune below [RuneSelf] is decoded from one byte, and is that byte:
    every encoding of two bytes or more, and [RuneError], is at least
    [RuneSelf]. *)
Lemma DecodeRune_fst_snd s :
  fst (utf8.DecodeRuneInString s) < utf8.RuneSelf ->
  snd (utf8.DecodeRuneInString s) = 1 /\
  exists b0 t, s = b0 :: t /\ byteval b0 = fst (utf8.DecodeRuneInString s).
Proof.
  unfold utf8.RuneSelf.
  destruct s as [|b0 t]; unfold utf8.DecodeRuneInString.
  - cbv beta iota delta [fst snd utf8.RuneError]. lia.
  - pose proof (byteval_range b0) as R0.
    destruct (first_cases (byteval b0) R0)
      as [(B & F)|[F|[(B & F)|[(B & F)|[(B & F)|[(B & F)|[(B & F)|[(B & F)|(B & F)]]]]]]]];
      rewrite F;
      (destruct (utf8.acceptRanges _) as [lo hi] eqn:AR;
       vm_compute in AR; injection AR as <- <-);
      split_open; cbv beta iota delta [fst snd utf8.RuneError];
      intro Hr;
      try (split; [reflexivity | exists b0, t; split; reflexivity]);
      try (exfalso; lia).
    all: exfalso; revert Hr; apply Z.le_ngt.
    all: repeat match goal with
         | H : utf8.outside _ _ _ = false |- _ => apply outside_false in H
         end.
    all: change utf8.mask2 with (Z.ones 5); change utf8.mask3 with (Z.ones 4);
      change utf8.mask4 with (Z.ones 3); change utf8.maskx with (Z.ones 6).
    all: match goal with
         | |- _ <= Z.lor (Z.lor (Z.lor ?a ?b) ?c) ?d =>
           destruct (lor4_ge a b c d) as (Ga & Gb);
             auto using shifted_nonneg, masked_nonneg, byteval_nonneg
         | |- _ <= Z.lor (Z.lor ?a ?b) ?c =>
           destruct (lor3_ge a b c) as (Ga & Gb);
             auto using shifted_nonneg, masked_nonneg, byteval_nonneg
         | |- _ <= Z.lor ?a ?b =>
           pose proof (lor2_ge a b) as Ga;
             assert (Gb : 0 <= 0) by lia
         end.
    all: rewrite ?shifted_mask in * by lia.
    all: rewrite ?Z.land_ones in * by lia.
    all: change (2 ^ 3) with 8 in *; change (2 ^ 4) with 16 in *;
      change (2 ^ 5) with 32 in *; change (2 ^ 6) with 64 in *;
      change (2 ^ 12) with 4096 in *; change (2 ^ 18) with 262144 in *.
    all: repeat match goal with
                | H : context [byteval ?b] |- _ =>
                  pose proof (byteval_range b);
                    generalize dependent (byteval b); intros
                end.
    all: Z.to_euclidean_division_equations; lia.
Qed.

Lemma byteval_inj b1 b2 : byteval b1 = byteval b2 -> b1 = b2.
Proof.
  unfold byteval. intro H. apply N2Z.inj in H.
  pose proof (Byte.of_to_N b1) as H1. pose proof (Byte.of_to_N b2) as H2.
  rewrite H in H1. congruence.
Qed.

(** A rune below [RuneSelf] is always one byte, decoded as itself. *)
Lemma DecodeRune_below_RuneSelf s r w :
  utf8.DecodeRuneInString s = (r, w) -> r < utf8.RuneSelf ->
  w = 1 /\ exists b0 t, s = b0 :: t /\ byteval b0 = r.
Proof.
  intros E Hr.
  pose proof (DecodeRune_fst_snd s) as W. rewrite E in W. cbn [fst snd] in W.
  exact (W Hr).
Qed.

(** ASCII bytes in front of a string are decoded one by one. *)
Lemma runes_ascii_app wd t :
  ascii_only wd -> runes (wd ++ t) = map byteval wd ++ runes t.
Proof.
  induction 1 as [|b wd Hb _ IH]; [reflexivity|].
  cbn [app map].
  rewrite (runes_cons (b :: wd ++ t) (byteval b) 1 ltac:(discriminate)
                      (DecodeRune_ascii b (wd ++ t) Hb)).
  f_equal. exact IH.
Qed.

(** Bytes matched by the loop of [acceptWord] against an ASCII word. *)
Lemma acceptWord_loop_ascii pos :
  forall wd l l',
    ascii_only wd -> 0 <= end_ l ->
    acceptWord_loop pos (map byteval wd) l = Ok true l' ->
    rest l = wd ++ rest l' /\ end_ l' = end_ l + len wd.
Proof.
  induction wd as [|b wd IH]; intros l l' Ha H0 E.
  - cbn in E. injection E as <-. split; [reflexivity|]. unfold len. cbn. lia.
  - apply Forall_cons_iff in Ha. destruct Ha as [Hb Ha].
    cbn [map acceptWord_loop] in E.
    destruct (next l) as [r l1| |] eqn:N; try discriminate.
    destruct (Z.eqb_spec r (byteval b)) as [->|Hne]; [|discriminate].
    destruct (Z.leb_spec (len (input l)) (end_ l)) as [Hx|Hlt].
    { unfold next in N. destruct (Z.leb_spec (len (input l)) (end_ l)); [|lia].
      injection N as N _. pose proof (byteval_nonneg b). unfold eof in N. lia. }
    destruct (next_decodes l H0 Hlt)
      as (r' & l1' & N' & _ & _ & D & _ & En & _ & Fr).
    rewrite N in N'. injection N' as <- <-.
    destruct (DecodeRune_below_RuneSelf _ _ _ D Hb) as (W1 & b0 & t & Rs & Bv).
    apply byteval_inj in Bv. subst b0.
    assert (R1 : rest l1 = t).
    { unfold rest. destruct Fr as (I & _). rewrite I, En, W1.
      rewrite <- slice_from_slice by lia. fold (rest l). rewrite Rs.
      reflexivity. }
    destruct (IH l1 l' Ha ltac:(lia) E) as (Rl & El).
    split.
    + rewrite Rs. cbn [app]. f_equal. rewrite <- R1. exact Rl.
    + rewrite El, En, W1, len_cons. lia.
Qed.

(** When the runes ahead start with the word, the loop matches it. *)
Lemma acceptWord_loop_prefix pos wd tail l :
  Forall (fun r => 0 <= r) wd -> 0 <= end_ l -> ahead l = wd ++ tail ->
  exists l', acceptWord_loop pos wd l = Ok true l'.
Proof.
  intros Hw H0 A.
  destruct (acceptWord_loop_spec pos wd l Hw H0)
    as [(l' & E & _)
       |(pre & c & post & l1 & r & l2 & Ew & Ah & H1 & Fr & N1 & Hr & E)].
  - exists l'. exact E.
  - exfalso. rewrite A, Ew, <- app_assoc in Ah.
    apply app_inv_head in Ah. cbn [app] in Ah.
    pose proof (next_spec l1 H1) as N. rewrite <- Ah in N.
    destruct N as (w & _ & _ & _ & N & _). rewrite N in N1.
    injection N1 as -> _. contradiction.
Qed.

(** X15: for a word of ASCII bytes, a keyword for instance, [acceptWord]
    works on bytes: it returns [true] exactly when the bytes at the
    cursor are those of the word, and then [end] has moved by the length
    of the word, whatever bytes follow. *)
Theorem acceptWord_ascii_bytes (word : gostring) (l : lexer) :
  0 <= end_ l -> ascii_only word ->
  exists b l',
    acceptWord word l = Ok b l' /\
    (b = true <-> firstn (List.length word) (rest l) = word) /\
    (b = true -> end_ l' = end_ l + len word /\ rest l = word ++ rest l').
Proof.
  intros H0 Ha. unfold acceptWord. rewrite (runes_ascii word Ha).
  assert (Nn : Forall (fun r => 0 <= r) (map byteval word)).
  { rewrite <- (runes_ascii word Ha). apply runes_nonneg. }
  destruct (acceptWord_loop_spec (end_ l) (map byteval word) l Nn H0)
    as [(l' & E & _)
       |(pre & c & post & l1 & r & l2 & Ew & Ah & H1 & Fr & N1 & Hr & E)].
  - destruct (acceptWord_loop_ascii (end_ l) word l l' Ha H0 E) as (Rl & El).
    exists true, l'. split; [exact E|]. split; [|auto].
    split; [|reflexivity]. intros _. rewrite Rl, firstn_app, firstn_all.
    rewrite Nat.sub_diag. cbn [firstn]. apply app_nil_r.
  - exists false, (set_end l2 (end_ l)). split; [exact E|].
    split; [|discriminate]. split; [discriminate|]. intro Hp. exfalso.
    assert (A : ahead l = map byteval word ++
                          runes (skipn (List.length word) (rest l))).
    { unfold ahead. rewrite <- (firstn_skipn (List.length word) (rest l)) at 1.
      rewrite Hp. apply runes_ascii_app. exact Ha. }
    destruct (acceptWord_loop_prefix (end_ l) _ _ l Nn H0 A) as (l' & E').
    rewrite E in E'. discriminate.
Qed.

Lemma acceptWord_ascii_bytes_witness :
  exists l',
    (next ;;; acceptWord (lit "in")) (new_lexer ([xc3; xa9] ++ lit "in" ++ [xc3; xa9]))
    = Ok true l' /\ end_ l' = 4.
Proof.
  pose (l1 := moved (new_lexer ([xc3; xa9] ++ lit "in" ++ [xc3; xa9])) 2).
  assert (P : 0 <= end_ l1) by (vm_compute; discriminate).
  assert (A : ascii_only (lit "in")) by (repeat constructor).
  destruct (acceptWord_ascii_bytes (lit "in") l1 P A) as (b & l' & E & Hb & He).
  assert (Bt : b = true) by (apply Hb; reflexivity).
  subst b. exists l'. split; [exact E|].
  destruct (He eq_refl) as (En & _). rewrite En. reflexivity.
Defined.
